(** * goiter: channel-backed iterators (iter.go, main.go)

    The Go program builds lazy integer sequences out of goroutines that are
    joined by unbuffered channels.  Every constructor ([Range], [Seq]) and
    every combinator ([Map], [Filter], [Take], [Drop]) starts one goroutine
    that owns the sending end of a fresh channel; [Reduce] and [Collect] run
    on the calling goroutine.

    The embedding keeps that shape.  A goroutine is a [node]: the local
    variables of its closure together with the blocking operation it is
    parked on.  An [Iter] is the stack of goroutines behind a channel, the
    owner of the channel first.  The only steps of a network are rendezvous
    on one channel ([handoff]); which of the enabled rendezvous happens next
    is the scheduler's choice ([run] takes the schedule as an argument). *)

From Stdlib Require Import ZArith List Bool Lia Factorial Sorted.
Import ListNotations.
Open Scope Z_scope.

(** ** Go's [int]

    [int] is taken at 64 bits (amd64, arm64).  Arithmetic wraps around in
    two's complement. *)

Module GoInt.

Definition min_int : Z := - 2 ^ 63.
Definition max_int : Z := 2 ^ 63 - 1.

Definition wrap (z : Z) : Z := (z + 2 ^ 63) mod 2 ^ 64 - 2 ^ 63.

Definition in_range (z : Z) : Prop := min_int <= z <= max_int.

End GoInt.
Import GoInt.

(** ** Goroutines *)

(** Where a goroutine is parked: at the receive of [for x := range it], at
    the send [ch <- v], or past its last statement (for a producer the
    deferred [close(ch)] has run; for [Collect] and [Reduce] the method has
    returned). *)
Inductive pc : Type :=
| AtRecv
| AtSend (v : Z)
| Returned.

(** The closure of each goroutine of iter.go with its captured variables. *)
Inductive code : Type :=
| RangeG (i to : Z)                    (* Range: loop variable i, bound to *)
| SeqG (n : Z)                         (* Seq: counter n *)
| MapG (fn : Z -> Z)
| FilterG (pred : Z -> bool)
| TakeG (n count : Z)
| DropG (n count : Z)
| CollectG (s : list Z)                (* Collect on the caller: slice s *)
| ReduceG (fn : Z -> Z -> Z) (acc : Z) (* Reduce on the caller: acc *).

Record node : Type := Node { body : code; point : pc }.

(** Loop head of Range: [for i := from; i < to; i++]. *)
Definition range_head (i to : Z) : node :=
  if i <? to then Node (RangeG i to) (AtSend i)
  else Node (RangeG i to) Returned.

(** What a goroutine does once its receive has delivered [m] ([Some x] for
    an element, [None] when the channel is closed and drained), up to its
    next blocking operation.  [Range] and [Seq] have no upstream and never
    wait at a receive. *)
Definition after_recv (g : code) (m : option Z) : node :=
  match g, m with
  | MapG fn, Some x => Node g (AtSend (fn x))
  | FilterG pred, Some x =>
      if pred x then Node g (AtSend x) else Node g AtRecv
  | TakeG n count, Some x =>
      if count <? n then Node g (AtSend x) else Node g Returned
  | DropG n count, Some x =>
      if count <? n then Node (DropG n (wrap (count + 1))) AtRecv
      else Node g (AtSend x)
  | CollectG s, Some x => Node (CollectG (s ++ [x])) AtRecv
  | ReduceG fn acc, Some x => Node (ReduceG fn (fn acc x)) AtRecv
  | _, _ => Node g Returned
  end.

(** What a goroutine does once its send has been taken, up to its next
    blocking operation.  [Collect] and [Reduce] never send. *)
Definition after_send (g : code) : node :=
  match g with
  | RangeG i to => range_head (wrap (i + 1)) to
  | SeqG n => Node (SeqG (wrap (n + 1))) (AtSend (wrap (n + 1)))
  | TakeG n count => Node (TakeG n (wrap (count + 1))) AtRecv
  | MapG _ | FilterG _ | DropG _ _ => Node g AtRecv
  | CollectG _ | ReduceG _ _ => Node g Returned
  end.

(** The goroutines whose loop is left only when the input is closed: all
    but Take, which also breaks, and the sources. *)
Definition waits_for_eos (g : code) : bool :=
  match g with
  | MapG _ | FilterG _ | DropG _ _ | CollectG _ | ReduceG _ _ => true
  | RangeG _ _ | SeqG _ | TakeG _ _ => false
  end.

(** ** Channels *)

(** One rendezvous on the unbuffered channel between producer [p] and
    consumer [c].  The consumer must be parked at its receive.  If the
    producer is parked at a send the value passes and both go on; if the
    producer has closed the channel the consumer sees the end of the
    stream. *)
Definition handoff (p c : node) : option (node * node) :=
  match point c with
  | AtRecv =>
      match point p with
      | AtSend v => Some (after_send (body p), after_recv (body c) (Some v))
      | Returned => Some (p, after_recv (body c) None)
      | AtRecv => None
      end
  | _ => None
  end.

(** ** Networks

    A network lists its goroutines from the consumer end: the node at
    position [i] receives from the node at position [i+1]. *)
Definition network : Type := list node.

(** The rendezvous on the channel between positions [i+1] and [i]. *)
Fixpoint step_at (i : nat) (net : network) : option network :=
  match net with
  | c :: (p :: up) as tl =>
      match i with
      | O =>
          match handoff p c with
          | Some (p', c') => Some (c' :: p' :: up)
          | None => None
          end
      | S i' =>
          match step_at i' tl with
          | Some tl' => Some (c :: tl')
          | None => None
          end
      end
  | _ => None
  end.

(** A schedule names the channel of each successive rendezvous. *)
Fixpoint run (sched : list nat) (net : network) : option network :=
  match sched with
  | [] => Some net
  | i :: rest =>
      match step_at i net with
      | Some net' => run rest net'
      | None => None
      end
  end.

Definition reach (net net' : network) : Prop :=
  exists sched, run sched net = Some net'.

(** At each tick the scheduler looks at one channel; if no rendezvous is
    enabled there, nothing happens. *)
Definition try_step (i : nat) (net : network) : network :=
  match step_at i net with
  | Some net' => net'
  | None => net
  end.

(** The network after the first [k] ticks of the schedule [sigma]. *)
Fixpoint exec (sigma : nat -> nat) (k : nat) (net : network) : network :=
  match k with
  | O => net
  | S k' => exec (fun m => sigma (S m)) k' (try_step (sigma O) net)
  end.

(** A fair schedule looks at every channel of the network again and
    again. *)
Definition fair (net : network) (sigma : nat -> nat) : Prop :=
  forall i k, (S i < length net)%nat ->
              exists k', (k <= k')%nat /\ sigma k' = i.

(** ** iter.go *)

(** [type Iter <-chan int]: the receiving end of a channel, identified with
    the goroutines that feed it. *)
Definition Iter : Type := list node.

Definition Range (from to : Z) : Iter := [range_head from to].

Definition Seq : Iter := [Node (SeqG 0) (AtSend 0)].

Definition Map (it : Iter) (fn : Z -> Z) : Iter :=
  Node (MapG fn) AtRecv :: it.

Definition Filter (it : Iter) (pred : Z -> bool) : Iter :=
  Node (FilterG pred) AtRecv :: it.

Definition Take (it : Iter) (n : Z) : Iter :=
  Node (TakeG n 0) AtRecv :: it.

Definition Drop (it : Iter) (n : Z) : Iter :=
  Node (DropG n 0) AtRecv :: it.

Definition Collect (it : Iter) : network :=
  Node (CollectG []) AtRecv :: it.

Definition Reduce (it : Iter) (init : Z) (fn : Z -> Z -> Z) : network :=
  Node (ReduceG fn init) AtRecv :: it.

(** What the calling goroutine got back, once it has returned. *)
Inductive value : Type :=
| Slice (s : list Z)
| Int (acc : Z).

Definition result (net : network) : option value :=
  match net with
  | Node (CollectG s) Returned :: _ => Some (Slice s)
  | Node (ReduceG _ acc) Returned :: _ => Some (Int acc)
  | _ => None
  end.

(** The caller's view of a whole program: it can return [r]; under every
    schedule it still can, and returns nothing else; under every fair
    endless schedule it does. *)
Definition yields (net : network) (r : value) : Prop :=
  (exists net', reach net net' /\ result net' = Some r) /\
  (forall net1, reach net net1 ->
     (exists net2, reach net1 net2 /\ result net2 = Some r) /\
     (forall r', result net1 = Some r' -> r' = r)) /\
  (forall sigma, fair net sigma ->
     exists k, result (exec sigma k net) = Some r).

(** The caller never returns, under any schedule. *)
Definition blocks_forever (net : network) : Prop :=
  forall net', reach net net' -> result net' = None.

(** A demand-driven scheduler: always the enabled rendezvous nearest to the
    caller. *)
Fixpoint first_enabled (net : network) : option nat :=
  match net with
  | c :: (p :: _) as tl =>
      match handoff p c with
      | Some _ => Some O
      | None => option_map S (first_enabled tl)
      end
  | _ => None
  end.

Fixpoint drive (fuel : nat) (net : network) : network :=
  match fuel with
  | O => net
  | S fuel' =>
      match first_enabled net with
      | Some i =>
          match step_at i net with
          | Some net' => drive fuel' net'
          | None => net
          end
      | None => net
      end
  end.

(** ** main.go *)

Inductive outcome : Type :=
| Ret (b : bool)
| Panic
| OutOfFuel.

(** [for i := 2; i*i <= n; i++ { if n%i == 0 { return false } }; return true].
    [%] is Go's truncated remainder and panics on a zero divisor. *)
Fixpoint isPrime_loop (fuel : nat) (i n : Z) : outcome :=
  match fuel with
  | O => OutOfFuel
  | S fuel' =>
      if wrap (i * i) <=? n then
        if i =? 0 then Panic
        else if Z.rem n i =? 0 then Ret false
        else isPrime_loop fuel' (wrap (i + 1)) n
      else Ret true
  end.

Definition isPrime_fuel (n : Z) : nat := S (Z.to_nat n).

Definition isPrime (n : Z) : outcome := isPrime_loop (isPrime_fuel n) 2 n.

Definition isPrimeb (n : Z) : bool :=
  match isPrime n with Ret b => b | _ => false end.

(** The largest [i] whose square fits in an [int]:
    [3037000499 ^ 2 < 2 ^ 63 <= 3037000500 ^ 2]. *)
Definition sqrt_bound : Z := 3037000499.

(** A square root of [2 ^ 63 - 7] modulo [2 ^ 64]: the first [i] past
    [sqrt_bound] for which [i * i], wrapped around, exceeds a given
    [n < 2 ^ 63 - 7] is at most this one. *)
Definition top_root : Z := 2759374635167858507.

Definition squares (n : Z) : network :=
  Collect (Map (Range 1 (wrap (n + 1))) (fun x => wrap (x * x))).

Definition fac (n : Z) : network :=
  Reduce (Range 1 (wrap (n + 1))) 1 (fun acc cur => wrap (acc * cur)).

Definition primes (n : Z) : network :=
  Collect (Take (Filter (Drop Seq 2) isPrimeb) n).

(** ** An iterator seen from its channel *)

(** The element an iterator has ready for whoever receives from it, and the
    iterator once that element has been taken. *)
Definition offer (it : Iter) : option (Z * Iter) :=
  match it with
  | p :: up =>
      match point p with
      | AtSend v => Some (v, after_send (body p) :: up)
      | _ => None
      end
  | [] => None
  end.

(** The channel of the iterator has been closed. *)
Definition closed (it : Iter) : bool :=
  match it with
  | p :: _ => match point p with Returned => true | _ => false end
  | [] => false
  end.

(** [pulls it L it']: a consumer that keeps receiving can get the elements
    [L], in this order, out of [it], leaving it as [it'].  Rendezvous inside
    the iterator happen in between, in any order the scheduler likes. *)
Inductive pulls : Iter -> list Z -> Iter -> Prop :=
| pulls_done it : pulls it [] it
| pulls_inner i it it1 L it' :
    step_at i it = Some it1 -> pulls it1 L it' -> pulls it L it'
| pulls_elem v it it1 L it' :
    offer it = Some (v, it1) -> pulls it1 L it' -> pulls it (v :: L) it'.

(** A finite sequence: the elements [L], then the channel is closed. *)
Definition closes_after (it : Iter) (L : list Z) : Prop :=
  exists it', pulls it L it' /\ closed it' = true.

(** A sequence whose channel is never closed, however long one receives. *)
Definition never_closes (it : Iter) : Prop :=
  forall L it', pulls it L it' -> closed it' = false.

(** One goroutine as a stream transformer: feed it the elements [L] for as
    long as it comes back to its receive; the result is what it sent, the
    state it is left in and the elements it did not take. *)
Fixpoint transduce (t : node) (L : list Z) : list Z * node * list Z :=
  match L with
  | [] => ([], t, [])
  | x :: L' =>
      match point t with
      | AtRecv =>
          let t1 := after_recv (body t) (Some x) in
          match point t1 with
          | AtSend v =>
              let '(out, t', rest) := transduce (after_send (body t1)) L' in
              (v :: out, t', rest)
          | _ => transduce t1 L'
          end
      | _ => ([], t, L)
      end
  end.

(** [a, a+1, ..., a+len-1]. *)
Definition ints (a : Z) (len : nat) : list Z :=
  map (fun k => a + Z.of_nat k) (seq 0 len).

(** ** One goroutine seen from its two channels *)

(** What a goroutine observes: a receive that delivered [m], or a send of
    [v] that was taken. *)
Inductive io : Type :=
| Got (m : option Z)
| Sent (v : Z).

(** The goroutine after the history [h], if [h] is a history it can have. *)
Fixpoint node_run (t : node) (h : list io) : option node :=
  match h with
  | [] => Some t
  | Got m :: h' =>
      match point t with
      | AtRecv => node_run (after_recv (body t) m) h'
      | _ => None
      end
  | Sent v :: h' =>
      match point t with
      | AtSend w =>
          if v =? w then node_run (after_send (body t)) h' else None
      | _ => None
      end
  end.

(** The elements received, the elements sent, and whether the end of the
    input was seen. *)
Fixpoint gots (h : list io) : list Z :=
  match h with
  | [] => []
  | Got (Some x) :: h' => x :: gots h'
  | _ :: h' => gots h'
  end.

Fixpoint sents (h : list io) : list Z :=
  match h with
  | [] => []
  | Sent v :: h' => v :: sents h'
  | _ :: h' => sents h'
  end.

Fixpoint saw_eos (h : list io) : bool :=
  match h with
  | [] => false
  | Got None :: _ => true
  | _ :: h' => saw_eos h'
  end.

(** [G] is what the goroutine has received so far, [h] its history, [k] the
    number of elements it may still pass on, [t'] its state. *)
Definition take_inv (G : list Z) (h : list io) (k : nat) (t' : node) : Prop :=
  sents h = firstn (length (sents h)) G /\
  (length (sents h) <= k)%nat /\
  (length G <= length (sents h) + 1)%nat /\
  (point t' = Returned -> saw_eos h = true \/ length G = S k) /\
  (length G = S k -> point t' = Returned).

(** ** Histories against the transformer *)

(** The goroutines that have an upstream: all but the two sources. *)
Definition has_upstream (g : code) : bool :=
  match g with
  | RangeG _ _ | SeqG _ => false
  | _ => true
  end.

(** [M] is what a goroutine is due to send for what it has received; with
    the history [h] it has sent a prefix of [M], and at most one element of
    [M] is still on its hands. *)
Definition out_inv (M : list Z) (h : list io) : Prop :=
  sents h = firstn (length (sents h)) M /\
  (length M <= length (sents h) + 1)%nat.

(** The element a goroutine has received and not yet sent on: the one it
    is parked with at its send, if it is parked there. *)
Definition on_hands (t : node) : list Z :=
  match point t with
  | AtSend w => [w]
  | _ => []
  end.

(** What a goroutine is due to send, counted from its state [t], once it
    has received the elements [L]. *)
Definition due (t : node) (L : list Z) : list Z :=
  match point t with
  | AtRecv => fst (fst (transduce t L))
  | AtSend v => v :: fst (fst (transduce (after_send (body t)) L))
  | Returned => []
  end.

(** ** Wrap-around *)

Section Wrap.

Lemma wrap_small z : in_range z -> wrap z = z.
Proof.
  unfold in_range, min_int, max_int, wrap. intros H.
  rewrite Z.mod_small; lia.
Qed.

Lemma wrap_in_range z : in_range (wrap z).
Proof.
  unfold in_range, min_int, max_int, wrap.
  pose proof (Z.mod_pos_bound (z + 2 ^ 63) (2 ^ 64) ltac:(lia)). lia.
Qed.
End Wrap.

(** ** Steps of a network *)

Section Steps.

Lemma step_at_nil i : step_at i [] = None.
Proof. destruct i; reflexivity. Qed.

Lemma step_at_succ i c tl x :
  step_at (S i) (c :: tl) = Some x <->
  exists tl', step_at i tl = Some tl' /\ x = c :: tl'.
Proof.
  destruct tl as [|p up].
  - simpl. rewrite step_at_nil. split; [discriminate|].
    intros (tl' & H & _). discriminate.
  - change (step_at (S i) (c :: p :: up))
      with (match step_at i (p :: up) with
            | Some tl' => Some (c :: tl')
            | None => None
            end).
    destruct (step_at i (p :: up)) as [tl'|]; split.
    + intros [= <-]. eauto.
    + intros (tl'' & [= <-] & ->). reflexivity.
    + discriminate.
    + intros (tl'' & H & _). discriminate.
Qed.

Lemma step_at_zero c tl x :
  step_at 0 (c :: tl) = Some x <->
  exists p up p' c',
    tl = p :: up /\ handoff p c = Some (p', c') /\ x = c' :: p' :: up.
Proof.
  destruct tl as [|p up]; simpl.
  - split; [discriminate|]. intros (? & ? & ? & ? & H & _). discriminate.
  - destruct (handoff p c) as [[p' c']|] eqn:E; split.
    + intros [= <-]. exists p, up, p', c'. auto.
    + intros (? & ? & ? & ? & [= <- <-] & H & ->).
      rewrite E in H. injection H as <- <-. reflexivity.
    + discriminate.
    + intros (? & ? & ? & ? & [= <- <-] & H & _).
      rewrite E in H. discriminate.
Qed.

Lemma handoff_points p c p' c' :
  handoff p c = Some (p', c') ->
  point c = AtRecv /\ point p <> AtRecv.
Proof.
  unfold handoff. destruct (point c); try discriminate.
  destruct (point p); try discriminate; intros _; split; congruence.
Qed.

(** The consumer of an enabled rendezvous is parked at its receive, hence
    not at the send or the close that a rendezvous on its own output
    channel would need. *)
Lemma step_at_zero_recv c tl x :
  step_at 0 (c :: tl) = Some x -> point c = AtRecv.
Proof.
  intros H. apply step_at_zero in H.
  destruct H as (p & up & p' & c' & -> & H & _).
  now apply handoff_points in H.
Qed.

Lemma step_at_one_not_recv c p up x :
  step_at 0 (c :: p :: up) = Some x -> point p <> AtRecv.
Proof.
  intros H. apply step_at_zero in H.
  destruct H as (p0 & up0 & p' & c' & [= <- <-] & H & _).
  now apply handoff_points in H.
Qed.

(** Two different rendezvous that are both enabled touch disjoint pairs of
    goroutines, so they commute. *)
Lemma diamond_lt net :
  forall i j a b,
    (i < j)%nat ->
    step_at i net = Some a -> step_at j net = Some b ->
    exists c, step_at j a = Some c /\ step_at i b = Some c.
Proof.
  induction net as [|c tl IH]; intros i j a b Hlt Ha Hb.
  - rewrite step_at_nil in Ha. discriminate.
  - destruct j as [|j]; [lia|].
    apply step_at_succ in Hb. destruct Hb as (tl' & Hb & ->).
    destruct i as [|i].
    + pose proof Ha as Ha0.
      apply step_at_zero in Ha.
      destruct Ha as (p & up & p' & c' & -> & Hh & ->).
      destruct j as [|j].
      * apply step_at_zero_recv in Hb.
        apply step_at_one_not_recv in Ha0. contradiction.
      * apply step_at_succ in Hb. destruct Hb as (up' & Hb & ->).
        exists (c' :: p' :: up'). split.
        -- apply step_at_succ. eexists. split; [|reflexivity].
           apply step_at_succ. eauto.
        -- apply step_at_zero. exists p, up', p', c'. auto.
    + apply step_at_succ in Ha. destruct Ha as (tl'' & Ha & ->).
      destruct (IH i j tl'' tl' ltac:(lia) Ha Hb) as (d & H1 & H2).
      exists (c :: d). split; apply step_at_succ; eauto.
Qed.

Lemma diamond net i j a b :
  i <> j ->
  step_at i net = Some a -> step_at j net = Some b ->
  exists c, step_at j a = Some c /\ step_at i b = Some c.
Proof.
  intros Hne Ha Hb.
  destruct (Nat.lt_ge_cases i j) as [Hlt|Hge].
  - eapply diamond_lt; eauto.
  - destruct (diamond_lt net j i b a ltac:(lia) Hb Ha) as (c & H1 & H2).
    eauto.
Qed.

Lemma reach_refl net : reach net net.
Proof. exists []. reflexivity. Qed.

Lemma reach_step i net net' net'' :
  step_at i net = Some net' -> reach net' net'' -> reach net net''.
Proof.
  intros H (sched & Hs). exists (i :: sched). simpl. now rewrite H.
Qed.

Lemma reach_one i net net' : step_at i net = Some net' -> reach net net'.
Proof. intros H. eapply reach_step; [eassumption|apply reach_refl]. Qed.

Lemma run_app s1 s2 net net' :
  run s1 net = Some net' -> run (s1 ++ s2) net = run s2 net'.
Proof.
  revert net. induction s1 as [|i s1 IH]; simpl; intros net H.
  - now injection H as ->.
  - destruct (step_at i net); [auto|discriminate].
Qed.

Lemma reach_trans a b c : reach a b -> reach b c -> reach a c.
Proof.
  intros (s1 & H1) (s2 & H2). exists (s1 ++ s2).
  now rewrite (run_app _ _ _ _ H1).
Qed.

Lemma strip s :
  forall net b, run s net = Some b ->
  forall i a, step_at i net = Some a ->
  exists c, reach a c /\ (c = b \/ step_at i b = Some c).
Proof.
  induction s as [|j s IH]; simpl; intros net b Hrun i a Hi.
  - injection Hrun as <-. exists a. split; [apply reach_refl|auto].
  - destruct (step_at j net) as [n1|] eqn:Ej; [|discriminate].
    destruct (Nat.eq_dec i j) as [->|Hne].
    + rewrite Ej in Hi. injection Hi as <-.
      exists b. split; [exists s; assumption|auto].
    + destruct (diamond net i j a n1 Hne Hi Ej) as (d & Hd1 & Hd2).
      destruct (IH n1 b Hrun i d Hd2) as (c & Hc1 & Hc2).
      exists c. split; [|assumption].
      eapply reach_step; eassumption.
Qed.

(** Confluence: two schedules of one network can always be continued to a
    common network. *)
Lemma confluence s1 :
  forall net a, run s1 net = Some a ->
  forall b, reach net b ->
  exists c, reach a c /\ reach b c.
Proof.
  induction s1 as [|i s1 IH]; simpl; intros net a Hrun b Hb.
  - injection Hrun as <-. exists b. split; [assumption|apply reach_refl].
  - destruct (step_at i net) as [n1|] eqn:Ei; [|discriminate].
    destruct Hb as (s2 & Hs2).
    destruct (strip s2 net b Hs2 i n1 Ei) as (c0 & Hc0 & Hbc0).
    destruct (IH n1 a Hrun c0 Hc0) as (c & Hac & Hc0c).
    exists c. split; [assumption|].
    destruct Hbc0 as [->|Hstep]; [assumption|].
    eapply reach_step; eassumption.
Qed.

(** Once the caller has returned, no later step changes what it got. *)
Lemma result_head net r :
  result net = Some r ->
  exists c tl, net = c :: tl /\ point c = Returned.
Proof.
  destruct net as [|[g q] tl]; [discriminate|].
  simpl. destruct g; try discriminate; destruct q; try discriminate;
    intros _; eauto.
Qed.

Lemma result_step net r i net' :
  result net = Some r -> step_at i net = Some net' -> result net' = Some r.
Proof.
  intros Hr Hs.
  destruct (result_head _ _ Hr) as (c & tl & -> & Hc).
  destruct i as [|i].
  - apply step_at_zero_recv in Hs. congruence.
  - apply step_at_succ in Hs. destruct Hs as (tl' & _ & ->).
    destruct c as [g q]. simpl in *. exact Hr.
Qed.

Lemma result_stable net net' r :
  result net = Some r -> reach net net' -> result net' = Some r.
Proof.
  intros Hr (sched & Hs). revert net Hr Hs.
  induction sched as [|i sched IH]; simpl; intros net Hr Hs.
  - now injection Hs as <-.
  - destruct (step_at i net) as [n1|] eqn:E; [|discriminate].
    eapply IH; [|eassumption]. eapply result_step; eassumption.
Qed.

Lemma result_unique net a b ra rb :
  reach net a -> reach net b ->
  result a = Some ra -> result b = Some rb -> ra = rb.
Proof.
  intros (s1 & Ha) Hb Hra Hrb.
  destruct (confluence s1 net a Ha b Hb) as (c & Hac & Hbc).
  pose proof (result_stable _ _ _ Hra Hac) as H1.
  pose proof (result_stable _ _ _ Hrb Hbc) as H2.
  congruence.
Qed.

End Steps.

(** ** Fair schedules *)

Section Fairness.

Lemma step_at_length net :
  forall i net', step_at i net = Some net' ->
                 length net' = length net /\ (S i < length net)%nat.
Proof.
  induction net as [|c tl IH]; intros i net' H.
  - rewrite step_at_nil in H. discriminate.
  - destruct i as [|i].
    + apply step_at_zero in H.
      destruct H as (p & up & p' & c' & -> & _ & ->). simpl. lia.
    + apply step_at_succ in H. destruct H as (tl' & H & ->).
      destruct (IH i tl' H). simpl. lia.
Qed.

Lemma fair_shift net net' sigma :
  fair net sigma -> length net' = length net ->
  fair net' (fun m => sigma (S m)).
Proof.
  intros Hf Hlen i k Hi. rewrite Hlen in Hi.
  destruct (Hf i (S k) Hi) as (k' & Hk' & E).
  exists (pred k'). split; [lia|].
  replace (S (pred k')) with k' by lia. exact E.
Qed.

Lemma exec_reach k : forall sigma net, reach net (exec sigma k net).
Proof.
  induction k as [|k IH]; intros sigma net; simpl; [apply reach_refl|].
  eapply reach_trans; [|apply IH].
  unfold try_step. destruct (step_at (sigma O) net) as [net'|] eqn:E.
  - eapply reach_one; eassumption.
  - apply reach_refl.
Qed.

(** A step taken out of turn leaves a schedule to the same end that is no
    longer and starts with the same rendezvous. *)
Lemma residual s :
  forall net F j net',
    run s net = Some F -> step_at j net = Some net' ->
    exists s' F',
      run s' net' = Some F' /\
      (length s' <= length s)%nat /\
      (F' = F \/ step_at j F = Some F') /\
      (forall i s0, s = i :: s0 -> i <> j -> exists s0', s' = i :: s0').
Proof.
  induction s as [|i s IH]; simpl; intros net F j net' Hrun Hj.
  - injection Hrun as <-. exists [], net'. repeat split; auto.
    intros i s0 [=].
  - destruct (step_at i net) as [n1|] eqn:Ei; [|discriminate].
    destruct (Nat.eq_dec i j) as [->|Hne].
    + rewrite Ei in Hj. injection Hj as <-.
      exists s, F. repeat split; auto.
      intros i s0 [= <- <-] Hij. contradiction.
    + destruct (diamond net i j n1 net' Hne Ei Hj) as (d & Hd1 & Hd2).
      destruct (IH n1 F j d Hrun Hd1) as (s' & F' & Hr' & Hl & HF & _).
      exists (i :: s'), F'. simpl. rewrite Hd2. repeat split; auto.
      * lia.
      * intros i0 s0 [= <- <-] _. eauto.
Qed.

Lemma fair_returns_by r m :
  forall s net F sigma,
    (length s <= m)%nat ->
    run s net = Some F -> result F = Some r ->
    fair net sigma ->
    exists k, result (exec sigma k net) = Some r.
Proof.
  induction m as [|m IHm]; intros s net F sigma Hlen Hrun Hres Hfair.
  - destruct s; [|simpl in Hlen; lia].
    injection Hrun as <-. exists O. exact Hres.
  - destruct s as [|i s0].
    { injection Hrun as <-. exists O. exact Hres. }
    assert (Hi : (S i < length net)%nat).
    { simpl in Hrun. destruct (step_at i net) as [n1|] eqn:E;
        [|discriminate].
      now destruct (step_at_length _ _ _ E). }
    destruct (Hfair i O Hi) as (k0 & _ & Hk0).
    clear Hi. revert net sigma s0 F Hlen Hrun Hres Hfair Hk0.
    induction k0 as [|k0 IHk]; intros net sigma s0 F Hlen Hrun Hres Hfair Hk0.
    + simpl in Hrun. destruct (step_at i net) as [n1|] eqn:E;
        [|discriminate].
      destruct (IHm s0 n1 F (fun m => sigma (S m))) as (k & Hk); auto.
      * simpl in Hlen. lia.
      * eapply fair_shift; [eassumption|].
        now destruct (step_at_length _ _ _ E).
      * exists (S k). simpl. unfold try_step. now rewrite Hk0, E.
    + destruct (step_at (sigma O) net) as [net'|] eqn:Ej.
      * destruct (Nat.eq_dec i (sigma O)) as [Heq|Hne].
        -- simpl in Hrun. rewrite Heq, Ej in Hrun.
           destruct (IHm s0 net' F (fun m => sigma (S m))) as (k & Hk); auto.
           ++ simpl in Hlen. lia.
           ++ eapply fair_shift; [eassumption|].
              now destruct (step_at_length _ _ _ Ej).
           ++ exists (S k). simpl. unfold try_step. now rewrite Ej.
        -- destruct (residual _ _ _ _ _ Hrun Ej)
             as (s' & F' & Hr' & Hl' & HF' & Hhd).
           destruct (Hhd i s0 eq_refl Hne) as (s0' & ->).
           destruct (IHk net' (fun m => sigma (S m)) s0' F') as (k & Hk).
           ++ lia.
           ++ exact Hr'.
           ++ destruct HF' as [->|Hs]; [exact Hres|].
              eapply result_step; eassumption.
           ++ eapply fair_shift; [eassumption|].
              now destruct (step_at_length _ _ _ Ej).
           ++ exact Hk0.
           ++ exists (S k). simpl. unfold try_step. now rewrite Ej.
      * destruct (IHk net (fun m => sigma (S m)) s0 F) as (k & Hk); auto.
        -- eapply fair_shift; [eassumption|reflexivity].
        -- exists (S k). simpl. unfold try_step. now rewrite Ej.
Qed.

(** A program that can return does return under every fair schedule. *)
Lemma fair_returns net F r sigma :
  reach net F -> result F = Some r -> fair net sigma ->
  exists k, result (exec sigma k net) = Some r.
Proof.
  intros (s & Hrun) Hres Hfair.
  eapply fair_returns_by; eauto.
Qed.

End Fairness.

Section Producers.

Lemma pulls_trans it L1 it1 L2 it2 :
  pulls it L1 it1 -> pulls it1 L2 it2 -> pulls it (L1 ++ L2) it2.
Proof.
  induction 1; simpl; intros H2; [assumption| |].
  - eapply pulls_inner; eauto.
  - eapply pulls_elem; eauto.
Qed.

Lemma pulls_silent_reach it it' : pulls it [] it' -> reach it it'.
Proof.
  intros H. remember [] as L eqn:EL. induction H; try discriminate.
  - apply reach_refl.
  - eapply reach_step; eauto.
Qed.

Lemma reach_pulls_silent it it' : reach it it' -> pulls it [] it'.
Proof.
  intros (sched & H). revert it H.
  induction sched as [|i sched IH]; simpl; intros it H.
  - injection H as <-. constructor.
  - destruct (step_at i it) as [it1|] eqn:E; [|discriminate].
    eapply pulls_inner; eauto.
Qed.

Lemma step_recv_elem c it v it1 :
  point c = AtRecv -> offer it = Some (v, it1) ->
  step_at 0 (c :: it) = Some (after_recv (body c) (Some v) :: it1).
Proof.
  intros Hc Ho. destruct it as [|p up]; [discriminate|].
  simpl in Ho. destruct (point p) eqn:Ep; try discriminate.
  injection Ho as <- <-.
  simpl. unfold handoff. now rewrite Hc, Ep.
Qed.

Lemma step_recv_eos c it :
  point c = AtRecv -> closed it = true ->
  step_at 0 (c :: it) = Some (after_recv (body c) None :: it).
Proof.
  intros Hc Ho. destruct it as [|p up]; [discriminate|].
  simpl in Ho. destruct (point p) eqn:Ep; try discriminate.
  simpl. unfold handoff. now rewrite Hc, Ep.
Qed.

Lemma after_recv_eos g : after_recv g None = Node g Returned.
Proof. destruct g; reflexivity. Qed.

(** Composition: a goroutine put in front of an iterator sends what
    [transduce] says, whenever the iterator can deliver the input. *)
Lemma pulls_through it L it' :
  pulls it L it' ->
  forall t, exists it'',
    pulls (t :: it) (fst (fst (transduce t L)))
          (snd (fst (transduce t L)) :: it'') /\
    (snd (transduce t L) = [] -> it'' = it').
Proof.
  induction 1 as [it|i it it1 L it' Hstep Hp IH|v it it1 L it' Ho Hp IH];
    intros t.
  - exists it. split; [constructor|reflexivity].
  - destruct (IH t) as (it'' & H1 & H2). exists it''. split; [|assumption].
    eapply pulls_inner; [|eassumption].
    apply step_at_succ. eauto.
  - simpl. destruct (point t) eqn:Et;
      try (exists it; split; [constructor|discriminate]).
    pose proof (step_recv_elem t it v it1 Et Ho) as Hs.
    destruct (point (after_recv (body t) (Some v))) as [|w|] eqn:E1.
    + destruct (IH (after_recv (body t) (Some v))) as (it'' & H1 & H2).
      exists it''. split; [|assumption]. eapply pulls_inner; eassumption.
    + destruct (IH (after_send (body (after_recv (body t) (Some v)))))
        as (it'' & H1 & H2).
      destruct (transduce (after_send (body (after_recv (body t) (Some v)))) L)
        as [[out t'] rest]. simpl in H1, H2 |- *.
      exists it''. split; [|assumption].
      eapply pulls_inner; [eassumption|].
      eapply pulls_elem; [|eassumption].
      simpl. now rewrite E1.
    + destruct (IH (after_recv (body t) (Some v))) as (it'' & H1 & H2).
      exists it''. split; [|assumption]. eapply pulls_inner; eassumption.
Qed.

(** A goroutine that took all of a finite input and is back at its receive
    sees the closed channel and closes its own. *)
Lemma closes_through it L t out t' :
  closes_after it L ->
  transduce t L = (out, t', []) ->
  point t' = AtRecv \/ point t' = Returned ->
  exists it', pulls (t :: it) out (Node (body t') Returned :: it').
Proof.
  intros (it' & Hp & Hc) Ht Hpt.
  destruct (pulls_through it L it' Hp t) as (it'' & H1 & H2).
  rewrite Ht in H1, H2. simpl in H1, H2. specialize (H2 eq_refl). subst it''.
  destruct Hpt as [Hr|Hr].
  - exists it'. rewrite <- (app_nil_r out).
    eapply pulls_trans; [eassumption|].
    eapply pulls_inner; [apply step_recv_eos; eassumption|].
    rewrite after_recv_eos. constructor.
  - exists it'. destruct t' as [g q]. simpl in *. subst q. assumption.
Qed.

Lemma yields_intro net net' r :
  reach net net' -> result net' = Some r -> yields net r.
Proof.
  intros Hreach Hres. split; [eauto|]. split.
  - intros net1 H1. destruct Hreach as (s & Hs).
    destruct (confluence s net net' Hs net1 H1) as (c & Hc1 & Hc2).
    pose proof (result_stable _ _ _ Hres Hc1) as Hrc.
    split; [eauto|].
    intros r' Hr'. pose proof (result_stable _ _ _ Hr' Hc2). congruence.
  - intros sigma Hfair. eapply fair_returns; eassumption.
Qed.

Lemma yields_unique net r r' : yields net r -> yields net r' -> r = r'.
Proof.
  intros (_ & H & _) [(net' & Hreach & Hres) _].
  destruct (H net' Hreach) as [_ Hu]. symmetry. auto.
Qed.

End Producers.

(** ** The goroutines of iter.go as stream transformers *)

Section Transducers.

Lemma transduce_map fn L :
  transduce (Node (MapG fn) AtRecv) L = (map fn L, Node (MapG fn) AtRecv, []).
Proof.
  induction L as [|x L IH]; [reflexivity|].
  cbn. cbn in IH. now rewrite IH.
Qed.

Lemma transduce_filter pred L :
  transduce (Node (FilterG pred) AtRecv) L =
  (filter pred L, Node (FilterG pred) AtRecv, []).
Proof.
  induction L as [|x L IH]; [reflexivity|].
  cbn. destruct (pred x); cbn; cbn in IH; now rewrite IH.
Qed.

Lemma transduce_collect L :
  forall s,
    transduce (Node (CollectG s) AtRecv) L =
    ([], Node (CollectG (s ++ L)) AtRecv, []).
Proof.
  induction L as [|x L IH]; intros s.
  - cbn. now rewrite app_nil_r.
  - cbn. specialize (IH (s ++ [x])). cbn in IH. rewrite IH.
    now rewrite <- app_assoc.
Qed.

Lemma transduce_reduce fn L :
  forall acc,
    transduce (Node (ReduceG fn acc) AtRecv) L =
    ([], Node (ReduceG fn (fold_left fn L acc)) AtRecv, []).
Proof.
  induction L as [|x L IH]; intros acc; [reflexivity|].
  cbn. specialize (IH (fn acc x)). cbn in IH. now rewrite IH.
Qed.

Lemma count_incr n count :
  0 <= count -> count < n -> n <= max_int -> wrap (count + 1) = count + 1.
Proof.
  intros. apply wrap_small. unfold in_range, min_int, max_int in *. lia.
Qed.

(** Take passes elements on while [count < n]; the first element it
    receives with [count >= n] makes it break and close. *)
Lemma transduce_take n L :
  n <= max_int ->
  forall count, 0 <= count ->
    exists t' rest,
      transduce (Node (TakeG n count) AtRecv) L =
        (firstn (Z.to_nat (n - count)) L, t', rest) /\
      ((length L <= Z.to_nat (n - count))%nat /\
         rest = [] /\ point t' = AtRecv \/
       (Z.to_nat (n - count) < length L)%nat /\ point t' = Returned).
Proof.
  intros Hn. induction L as [|x L IH]; intros count Hc.
  - exists (Node (TakeG n count) AtRecv), []. split.
    + now rewrite firstn_nil.
    + left. simpl. repeat split. lia.
  - cbn. destruct (Z.ltb_spec count n) as [Hlt|Hge]; cbn.
    + rewrite (count_incr n count Hc Hlt Hn).
      destruct (IH (count + 1) ltac:(lia)) as (t' & rest & E & Hcase).
      cbn in E. rewrite E.
      replace (Z.to_nat (n - count)) with (S (Z.to_nat (n - (count + 1))))
        by lia.
      exists t', rest. split; [reflexivity|].
      simpl. destruct Hcase as [(H1 & H2 & H3)|(H1 & H2)]; [left|right];
        repeat split; auto; lia.
    + replace (Z.to_nat (n - count)) with O by lia.
      exists (Node (TakeG n count) Returned).
      destruct L as [|y L]; cbn; eexists; (split; [reflexivity|]);
        right; split; auto; lia.
Qed.

(** Drop counts the first [n] elements away and passes the rest. *)
Lemma transduce_drop n L :
  n <= max_int ->
  forall count, 0 <= count ->
    exists count',
      transduce (Node (DropG n count) AtRecv) L =
        (skipn (Z.to_nat (n - count)) L, Node (DropG n count') AtRecv, []).
Proof.
  intros Hn. induction L as [|x L IH]; intros count Hc.
  - exists count. now rewrite skipn_nil.
  - cbn. destruct (Z.ltb_spec count n) as [Hlt|Hge]; cbn.
    + rewrite (count_incr n count Hc Hlt Hn).
      destruct (IH (count + 1) ltac:(lia)) as (count' & E).
      cbn in E. rewrite E.
      replace (Z.to_nat (n - count)) with (S (Z.to_nat (n - (count + 1))))
        by lia.
      exists count'. reflexivity.
    + destruct (IH count Hc) as (count' & E). cbn in E. rewrite E.
      replace (Z.to_nat (n - count)) with O by lia.
      exists count'. reflexivity.
Qed.

End Transducers.

(** ** Combinators on finite sequences *)

Section Combinators.

Variables (it : Iter) (L : list Z).
Hypothesis Hfin : closes_after it L.

Lemma closes_head t out t' :
  transduce t L = (out, t', []) ->
  point t' = AtRecv \/ point t' = Returned ->
  closes_after (t :: it) out.
Proof.
  intros Ht Hpt.
  destruct (closes_through it L t out t' Hfin Ht Hpt) as (it' & H).
  exists (Node (body t') Returned :: it'). split; [assumption|reflexivity].
Qed.

Lemma Map_closes fn : closes_after (Map it fn) (map fn L).
Proof.
  eapply closes_head; [apply transduce_map|]. left. reflexivity.
Qed.

Lemma Filter_closes pred : closes_after (Filter it pred) (filter pred L).
Proof.
  eapply closes_head; [apply transduce_filter|]. left. reflexivity.
Qed.

Lemma Drop_closes n :
  n <= max_int -> closes_after (Drop it n) (skipn (Z.to_nat n) L).
Proof.
  intros Hn.
  destruct (transduce_drop n L Hn 0 ltac:(lia)) as (count' & E).
  rewrite Z.sub_0_r in E.
  eapply closes_head; [exact E|]. left. reflexivity.
Qed.

Lemma Collect_yields : yields (Collect it) (Slice L).
Proof.
  destruct (closes_through it L (Node (CollectG []) AtRecv) []
              (Node (CollectG L) AtRecv) Hfin) as (it' & H).
  - apply (transduce_collect L []).
  - left. reflexivity.
  - eapply yields_intro; [apply pulls_silent_reach; exact H|reflexivity].
Qed.

Lemma Reduce_yields init fn :
  yields (Reduce it init fn) (Int (fold_left fn L init)).
Proof.
  destruct (closes_through it L (Node (ReduceG fn init) AtRecv) []
              (Node (ReduceG fn (fold_left fn L init)) AtRecv) Hfin)
    as (it' & H).
  - apply transduce_reduce.
  - left. reflexivity.
  - eapply yields_intro; [apply pulls_silent_reach; exact H|reflexivity].
Qed.

End Combinators.

(** Take needs the input only as far as one element past its bound, closed
    or not. *)
Lemma Take_closes it L it' n :
  pulls it L it' ->
  closed it' = true \/ (Z.to_nat n < length L)%nat ->
  n <= max_int ->
  closes_after (Take it n) (firstn (Z.to_nat n) L).
Proof.
  intros Hp Hend Hn.
  destruct (transduce_take n L Hn 0 ltac:(lia)) as (t' & rest & E & Hcase).
  rewrite Z.sub_0_r in E.
  destruct Hcase as [(Hlen & -> & Ht')|(Hlen & Ht')].
  - destruct Hend as [Hc|Hlong]; [|rewrite Z.sub_0_r in Hlen; lia].
    eapply closes_head; [exists it'; eauto|exact E|auto].
  - destruct (pulls_through it L it' Hp (Node (TakeG n 0) AtRecv))
      as (it'' & H1 & _).
    rewrite E in H1. simpl in H1.
    exists (t' :: it''). split; [exact H1|].
    simpl. now rewrite Ht'.
Qed.

(** The elements of a finite sequence are determined by the sequence. *)
Lemma closes_after_unique it L L' :
  closes_after it L -> closes_after it L' -> L = L'.
Proof.
  intros H H'.
  pose proof (yields_unique _ _ _ (Collect_yields it L H)
                (Collect_yields it L' H')) as E.
  now injection E.
Qed.

(** ** Sources *)

Section Sources.

Lemma ints_succ a len : ints a (S len) = a :: ints (a + 1) len.
Proof.
  unfold ints. simpl. rewrite <- seq_shift, map_map. f_equal.
  - lia.
  - apply map_ext. intros k. lia.
Qed.

Lemma ints_length a len : length (ints a len) = len.
Proof. unfold ints. now rewrite length_map, length_seq. Qed.

Lemma firstn_ints a len k :
  (k <= len)%nat -> firstn k (ints a len) = ints a k.
Proof.
  revert a len. induction k as [|k IH]; intros a len Hk; [reflexivity|].
  destruct len as [|len]; [lia|].
  rewrite !ints_succ. simpl. f_equal. apply IH. lia.
Qed.

(** The goroutine of Range sends [from], [from+1], ... while [i < to] and
    then closes. *)
Lemma Range_pulls len :
  forall from to,
    Z.to_nat (to - from) = len -> min_int <= from -> to <= max_int ->
    exists i, pulls [range_head from to] (ints from len)
                    [Node (RangeG i to) Returned].
Proof.
  induction len as [|len IH]; intros from to Hlen Hfrom Hto.
  - exists from. unfold range_head.
    destruct (Z.ltb_spec from to); [lia|]. constructor.
  - destruct (IH (from + 1) to ltac:(lia) ltac:(lia) Hto) as (i & Hi).
    exists i. rewrite ints_succ.
    eapply pulls_elem; [|exact Hi].
    unfold range_head at 1. destruct (Z.ltb_spec from to); [|lia].
    simpl. rewrite wrap_small; [reflexivity|].
    unfold in_range. lia.
Qed.

Lemma Range_closes from to :
  min_int <= from -> to <= max_int ->
  closes_after (Range from to) (ints from (Z.to_nat (to - from))).
Proof.
  intros Hfrom Hto.
  destruct (Range_pulls _ from to eq_refl Hfrom Hto) as (i & Hi).
  eexists. split; [exact Hi|reflexivity].
Qed.

(** The goroutine of Seq sends its counter and increments it, for ever. *)
Lemma Seq_pulls len :
  forall n,
    min_int <= n -> n + Z.of_nat len <= max_int + 1 ->
    exists it', pulls [Node (SeqG n) (AtSend n)] (ints n len) it'.
Proof.
  induction len as [|len IH]; intros n Hlo Hhi.
  - eexists. constructor.
  - rewrite ints_succ.
    destruct (Z.eq_dec n max_int) as [E|E].
    + assert (len = O) by lia. subst len.
      eexists. eapply pulls_elem; [reflexivity|constructor].
    + destruct (IH (n + 1) ltac:(lia) ltac:(lia)) as (it' & H).
      exists it'. eapply pulls_elem; [|exact H].
      simpl. rewrite wrap_small by (unfold in_range; lia). reflexivity.
Qed.

Lemma Seq_shape it L it' :
  pulls it L it' ->
  (exists n, it = [Node (SeqG n) (AtSend n)]) ->
  exists n', it' = [Node (SeqG n') (AtSend n')].
Proof.
  induction 1 as [it|i it it1 L it' Hs Hp IH|v it it1 L it' Ho Hp IH];
    intros (n & ->).
  - eauto.
  - destruct i; discriminate.
  - apply IH. simpl in Ho. injection Ho as <- <-. eauto.
Qed.

Lemma Seq_never_closes : never_closes Seq.
Proof.
  intros L it' H.
  destruct (Seq_shape _ _ _ H) as (n' & ->); [exists 0; reflexivity|].
  reflexivity.
Qed.

End Sources.

(** Evaluates a derivation of [pulls] on a concrete iterator whose next
    moves are all offers. *)
Ltac pull_all :=
  repeat (eapply pulls_elem; [vm_compute; reflexivity|]);
  apply pulls_done.

(** ** Every run of a goroutine in front of an iterator *)

Section Projection.

Lemma closed_pulls it L it' :
  pulls it L it' -> closed it = true -> closed it' = true /\ L = [].
Proof.
  induction 1 as [it|i it it1 L it' Hs Hp IH|v it it1 L it' Ho Hp IH];
    intros Hc.
  - auto.
  - apply IH. destruct it as [|p up]; [discriminate|].
    destruct i as [|i].
    + apply step_at_zero_recv in Hs. simpl in Hc. rewrite Hs in Hc.
      discriminate.
    + apply step_at_succ in Hs. destruct Hs as (tl' & _ & ->). exact Hc.
  - destruct it as [|p up]; [discriminate|]. simpl in Hc, Ho.
    destruct (point p); discriminate.
Qed.

(** Whatever the schedule, what the front goroutine [t] has sent and
    received is a history of [t] alone, and what it received is what the
    iterator behind it was made to deliver. *)
Lemma pulls_project X out X' :
  pulls X out X' ->
  forall t it, X = t :: it ->
  exists h t' it',
    X' = t' :: it' /\
    node_run t h = Some t' /\
    sents h = out /\
    pulls it (gots h) it' /\
    (saw_eos h = true -> closed it' = true).
Proof.
  induction 1 as [X|i X X1 out X' Hs Hp IH|v X X1 out X' Ho Hp IH];
    intros t it ->.
  - exists [], t, it. repeat split; try constructor. discriminate.
  - destruct i as [|i].
    + apply step_at_zero in Hs.
      destruct Hs as (p & up & p' & c' & -> & Hh & ->).
      destruct (IH c' (p' :: up) eq_refl) as (h & t' & it' & E & Hr & Hs & Hg & He).
      unfold handoff in Hh.
      destruct (point t) eqn:Et; try discriminate.
      destruct (point p) as [|v|] eqn:Ep; try discriminate;
        injection Hh as <- <-.
      * exists (Got (Some v) :: h), t', it'.
        simpl. rewrite Et. repeat split; auto.
        eapply pulls_elem; [|exact Hg]. simpl. now rewrite Ep.
      * exists (Got None :: h), t', it'.
        simpl. rewrite Et. repeat split; auto.
        intros _. eapply closed_pulls; [exact Hg|]. simpl. now rewrite Ep.
    + apply step_at_succ in Hs. destruct Hs as (tl' & Hs & ->).
      destruct (IH t tl' eq_refl) as (h & t' & it' & E & Hr & Hse & Hg & He).
      exists h, t', it'. repeat split; auto.
      eapply pulls_inner; eassumption.
  - simpl in Ho. destruct (point t) as [|w|] eqn:Et; try discriminate.
    injection Ho as <- <-.
    destruct (IH (after_send (body t)) it eq_refl)
      as (h & t' & it' & E & Hr & Hse & Hg & He).
    exists (Sent w :: h), t', it'.
    simpl. rewrite Et, Z.eqb_refl. repeat split; auto. now f_equal.
Qed.

(** Map, Filter, Drop, Collect and Reduce leave their loop only after they
    have seen the end of their input. *)
Lemma returns_on_eos h :
  forall t t',
    waits_for_eos (body t) = true ->
    match point t with
    | AtRecv => True
    | AtSend _ => point (after_send (body t)) = AtRecv
    | Returned => False
    end ->
    node_run t h = Some t' -> point t' = Returned -> saw_eos h = true.
Proof.
  induction h as [|e h IH]; intros [g q] t' Hk Ht Hr Hp; simpl in *.
  - injection Hr as <-. simpl in Hp. subst q. contradiction.
  - destruct e as [[x|]|v]; destruct q as [| w |]; try discriminate;
      try contradiction; try reflexivity.
    + apply (IH (after_recv g (Some x)) t'); try assumption;
        destruct g; try discriminate; simpl;
        repeat match goal with
               | |- context [if ?b then _ else _] => destruct b
               end; simpl; auto.
    + destruct (v =? w); [|discriminate].
      apply (IH (after_send g) t'); try assumption.
      * destruct g; try discriminate; reflexivity.
      * now rewrite Ht.
Qed.

(** Behind such a goroutine a channel that is never closed stays so. *)
Lemma never_closes_head t it :
  waits_for_eos (body t) = true ->
  point t = AtRecv ->
  never_closes it -> never_closes (t :: it).
Proof.
  intros Hk Ht Hnc out X Hp.
  destruct (pulls_project _ _ _ Hp t it eq_refl)
    as (h & t' & it' & -> & Hr & _ & Hg & He).
  simpl. destruct (point t') eqn:Ep; try reflexivity.
  assert (Heos : saw_eos h = true).
  { apply (returns_on_eos h t t' Hk); [now rewrite Ht|exact Hr|exact Ep]. }
  specialize (He Heos). rewrite (Hnc _ _ Hg) in He. discriminate.
Qed.

Lemma caller_blocks t it :
  (exists s, body t = CollectG s) \/ (exists fn acc, body t = ReduceG fn acc) ->
  point t = AtRecv ->
  never_closes it -> blocks_forever (t :: it).
Proof.
  intros Hk Ht Hnc net' Hreach.
  assert (Hw : waits_for_eos (body t) = true)
    by (destruct Hk as [(s & ->)|(fn & acc & ->)]; reflexivity).
  assert (Hc : closed net' = false).
  { apply (never_closes_head t it Hw Ht Hnc [] net').
    now apply reach_pulls_silent. }
  destruct net' as [|[g q] tl]; [reflexivity|].
  simpl in *. destruct q; try discriminate; destruct g; reflexivity.
Qed.

End Projection.

(** ** The goroutine of Take, under every history *)

Section TakeHistory.

Variable n : Z.
Hypothesis Hn : n <= max_int.

Lemma node_run_returned g h t' :
  node_run (Node g Returned) h = Some t' -> h = [] /\ t' = Node g Returned.
Proof.
  destruct h as [|[m|v] h]; simpl; try discriminate.
  intros [= <-]. auto.
Qed.

Lemma take_history h :
  forall count t', 0 <= count ->
    (node_run (Node (TakeG n count) AtRecv) h = Some t' ->
     take_inv (gots h) h (Z.to_nat (n - count)) t') /\
    (forall x, count < n ->
       node_run (Node (TakeG n count) (AtSend x)) h = Some t' ->
       take_inv (x :: gots h) h (Z.to_nat (n - count)) t').
Proof.
  induction h as [|e h IH]; intros count t' Hc; split.
  - simpl. intros [= <-]. unfold take_inv. simpl.
    repeat split; try lia; discriminate.
  - simpl. intros x Hlt [= <-]. unfold take_inv. simpl.
    repeat split; try lia; discriminate.
  - destruct e as [[x|]|v]; simpl; try discriminate.
    + destruct (Z.ltb_spec count n) as [Hlt|Hge].
      * intros Hr. exact (proj2 (IH count t' Hc) x Hlt Hr).
      * intros Hr. apply node_run_returned in Hr. destruct Hr as [-> ->].
        unfold take_inv. simpl.
        replace (Z.to_nat (n - count)) with O by lia.
        repeat split; auto; lia.
    + intros Hr. apply node_run_returned in Hr. destruct Hr as [-> ->].
      unfold take_inv. simpl. repeat split; auto; try lia; try discriminate.
  - intros x Hlt. destruct e as [m|v]; simpl; try discriminate.
    destruct (Z.eqb_spec v x) as [->|Hne]; [|discriminate].
    rewrite (count_incr n count Hc Hlt Hn). intros Hr.
    destruct (proj1 (IH (count + 1) t' ltac:(lia)) Hr)
      as (H1 & H2 & H3 & H4 & H5).
    assert (Ek : Z.to_nat (n - count) = S (Z.to_nat (n - (count + 1))))
      by lia.
    rewrite Ek. unfold take_inv. simpl. repeat split.
    + now f_equal.
    + lia.
    + lia.
    + intros Hp. destruct (H4 Hp); [left|right]; auto.
    + intros Hl. apply H5. lia.
Qed.

End TakeHistory.

Lemma ints_In a len x :
  In x (ints a len) <-> a <= x < a + Z.of_nat len.
Proof.
  unfold ints. rewrite in_map_iff. split.
  - intros (k & <- & Hk). apply in_seq in Hk. lia.
  - intros H. exists (Z.to_nat (x - a)). split; [lia|].
    apply in_seq. lia.
Qed.

(** ** main.go *)

Lemma drive_reach fuel : forall net, reach net (drive fuel net).
Proof.
  induction fuel as [|fuel IH]; intros net; simpl; [apply reach_refl|].
  destruct (first_enabled net) as [i|]; [|apply reach_refl].
  destruct (step_at i net) as [net'|] eqn:E; [|apply reach_refl].
  eapply reach_step; [exact E|apply IH].
Qed.

Example squares_20 :
  yields (squares 20)
         (Slice [1; 4; 9; 16; 25; 36; 49; 64; 81; 100; 121; 144; 169; 196;
                 225; 256; 289; 324; 361; 400]).
Proof.
  eapply yields_intro; [apply (drive_reach 100)|vm_compute; reflexivity].
Qed.

Example fac_10 : yields (fac 10) (Int 3628800).
Proof.
  eapply yields_intro; [apply (drive_reach 100)|vm_compute; reflexivity].
Qed.

Example primes_5 : yields (primes 5) (Slice [2; 3; 5; 7; 11]).
Proof.
  eapply yields_intro; [apply (drive_reach 100)|vm_compute; reflexivity].
Qed.

(** ** isPrime *)

Section IsPrime.

Variable n : Z.
Hypothesis Hn : in_range n.

(** The loop finds a divisor [d] with [d * d <= n]: up to [d] the squares
    do not wrap around. *)
Lemma isPrime_loop_false d :
  d * d <= n -> (d | n) ->
  forall fuel i,
    2 <= i <= d ->
    (Z.to_nat (d - i) < fuel)%nat ->
    isPrime_loop fuel i n = Ret false.
Proof.
  intros Hdd Hd. induction fuel as [|fuel IH]; intros i Hi Hfuel; [lia|].
  simpl.
  assert (Hsq : wrap (i * i) = i * i).
  { apply wrap_small. unfold in_range, min_int, max_int in *. nia. }
  rewrite Hsq. destruct (Z.leb_spec (i * i) n) as [_|Hgt]; [|nia].
  destruct (Z.eqb_spec i 0) as [E|_]; [lia|].
  destruct (Z.eqb_spec (Z.rem n i) 0) as [Hrem|Hrem]; [reflexivity|].
  assert (i <> d).
  { intros ->. apply Hrem. apply Z.rem_divide; [lia|assumption]. }
  rewrite wrap_small by (unfold in_range, min_int, max_int in *; nia).
  apply IH; lia.
Qed.

(** The loop runs past every [i] that does not divide [n] and stops, with
    true, at the first [i] whose wrapped square exceeds [n]. *)
Lemma isPrime_loop_true r :
  r <= max_int -> n < wrap (r * r) ->
  forall fuel i,
    2 <= i <= r ->
    (forall j, i <= j < r -> Z.rem n j <> 0) ->
    (Z.to_nat (r - i) < fuel)%nat ->
    isPrime_loop fuel i n = Ret true.
Proof.
  intros Hr Hrr. induction fuel as [|fuel IH]; intros i Hi Hnd Hfuel; [lia|].
  simpl. destruct (Z.leb_spec (wrap (i * i)) n) as [Hle|_]; [|reflexivity].
  destruct (Z.eqb_spec i 0) as [E|_]; [lia|].
  assert (i <> r) by (intros ->; lia).
  destruct (Z.eqb_spec (Z.rem n i) 0) as [Hrem|_];
    [exfalso; apply (Hnd i); [lia|assumption]|].
  rewrite wrap_small by (unfold in_range, min_int, max_int in *; lia).
  apply IH; [lia| |lia].
  intros j Hj. apply Hnd. lia.
Qed.

(** On every [int] the loop ends, and never divides by zero: from 4 on,
    [i] stays between 2 and [n], and [i = n] divides [n]. *)
Lemma isPrime_loop_total :
  forall fuel i,
    2 <= i <= n ->
    (Z.to_nat (n - i) < fuel)%nat ->
    exists b, isPrime_loop fuel i n = Ret b.
Proof.
  induction fuel as [|fuel IH]; intros i Hi Hfuel; [lia|].
  simpl. destruct (wrap (i * i) <=? n); [|eauto].
  destruct (Z.eqb_spec i 0) as [E|_]; [lia|].
  destruct (Z.eqb_spec (Z.rem n i) 0) as [Hrem|Hrem]; [eauto|].
  assert (i <> n) by (intros ->; apply Hrem; apply Z.rem_same; lia).
  rewrite wrap_small by (unfold in_range, min_int, max_int in *; lia).
  apply IH; lia.
Qed.

Lemma isPrime_small : n < 4 -> isPrime n = Ret true.
Proof.
  intros H. unfold isPrime, isPrime_fuel. cbn [isPrime_loop].
  replace (wrap (2 * 2)) with 4 by reflexivity.
  destruct (Z.leb_spec 4 n); [lia|reflexivity].
Qed.

(** Without a divisor up to the square root there is none below [n]. *)
Lemma no_small_divisor i :
  (forall j, 2 <= j <= Z.sqrt n -> ~ (j | n)) ->
  2 <= i < n -> Z.rem n i <> 0.
Proof.
  intros Hall Hi Hrem.
  apply Z.rem_divide in Hrem; [|lia].
  destruct Hrem as (q & Hq).
  assert (Hq2 : 2 <= q) by nia.
  destruct (Z.le_ge_cases i q) as [Hle|Hge].
  - apply (Hall i).
    + split; [lia|]. apply Z.sqrt_le_square; nia.
    + exists q. exact Hq.
  - apply (Hall q).
    + split; [lia|]. apply Z.sqrt_le_square; nia.
    + exists i. lia.
Qed.

(** The seven largest [int]s all have a small divisor. *)
Lemma top_ints_composite :
  max_int - 7 < n -> exists d, 2 <= d /\ d * d <= n /\ (d | n).
Proof.
  intros Hlo.
  assert (Hcases : n = max_int \/ n = max_int - 1 \/ n = max_int - 2 \/
                   n = max_int - 3 \/ n = max_int - 4 \/ n = max_int - 5 \/
                   n = max_int - 6)
    by (unfold in_range in Hn; lia).
  destruct Hcases as [E|[E|[E|[E|[E|[E|E]]]]]]; rewrite E.
  - exists 7. repeat split; try (vm_compute; congruence).
    exists 1317624576693539401. reflexivity.
  - exists 2. repeat split; try (vm_compute; congruence).
    exists 4611686018427387903. reflexivity.
  - exists 5. repeat split; try (vm_compute; congruence).
    exists 1844674407370955161. reflexivity.
  - exists 2. repeat split; try (vm_compute; congruence).
    exists 4611686018427387902. reflexivity.
  - exists 3. repeat split; try (vm_compute; congruence).
    exists 3074457345618258601. reflexivity.
  - exists 2. repeat split; try (vm_compute; congruence).
    exists 4611686018427387901. reflexivity.
  - exists 157. repeat split; try (vm_compute; congruence).
    exists 58747592591431693. reflexivity.
Qed.

Lemma isPrime_false d :
  2 <= d -> d * d <= n -> (d | n) -> isPrime n = Ret false.
Proof.
  intros Hd Hdd Hdiv. unfold isPrime.
  apply (isPrime_loop_false d Hdd Hdiv); [lia|].
  unfold isPrime_fuel. nia.
Qed.

Lemma isPrime_true :
  (forall j, 2 <= j <= Z.sqrt n -> ~ (j | n)) -> isPrime n = Ret true.
Proof.
  intros Hall.
  destruct (Z.lt_ge_cases n 4) as [Hs|H4]; [now apply isPrime_small|].
  assert (Hnd : forall r, r <= n -> forall j, 2 <= j < r -> Z.rem n j <> 0).
  { intros r Hr j Hj. apply no_small_divisor; [assumption|lia]. }
  pose proof (Z.sqrt_spec n ltac:(lia)) as Hsqrt.
  cbv zeta in Hsqrt. unfold Z.succ in Hsqrt.
  destruct (Z.lt_ge_cases n (sqrt_bound * sqrt_bound)) as [Hlow|Hhigh].
  - assert (Hsb : Z.sqrt n < sqrt_bound).
    { apply Z.sqrt_lt_square; unfold sqrt_bound in *; lia. }
    unfold isPrime.
    apply (isPrime_loop_true (Z.sqrt n + 1)).
    + unfold max_int, sqrt_bound in *. lia.
    + rewrite wrap_small; [lia|].
      unfold in_range, min_int, max_int, sqrt_bound in *. nia.
    + pose proof (Z.sqrt_nonneg n). nia.
    + apply Hnd. nia.
    + unfold isPrime_fuel. nia.
  - destruct (Z.le_gt_cases n (max_int - 7)) as [Htop|Htop].
    + unfold isPrime.
      apply (isPrime_loop_true top_root).
      * vm_compute. congruence.
      * replace (wrap (top_root * top_root)) with (max_int - 6)
          by reflexivity.
        lia.
      * unfold top_root. lia.
      * apply Hnd. unfold top_root, sqrt_bound in *. lia.
      * unfold isPrime_fuel, top_root, sqrt_bound in *. lia.
    + exfalso. destruct (top_ints_composite Htop) as (d & Hd & Hdd & Hdiv).
      apply (Hall d); [|assumption].
      split; [lia|]. apply Z.sqrt_le_square; lia.
Qed.

End IsPrime.

(** ** The properties of the specification *)

(** C1.  Take followed by Collect.  For every finite sequence [it] with
    elements [L] and every bound [0 <= n], [Take(it,n).Collect()] returns
    the first [min(n, len L)] elements of [L], in order; and
    [Seq().Take(k).Collect()] returns [0, 1, ..., k-1] for every
    [0 <= k]. *)
Theorem Take_Collect_prefix :
  (forall it L n,
     closes_after it L -> 0 <= n <= max_int ->
     yields (Collect (Take it n)) (Slice (firstn (Z.to_nat n) L)) /\
     length (firstn (Z.to_nat n) L) = Nat.min (Z.to_nat n) (length L)) /\
  (forall k,
     0 <= k <= max_int ->
     yields (Collect (Take Seq k)) (Slice (ints 0 (Z.to_nat k)))).
Proof.
  split.
  - intros it L n Hfin [_ Hn]. split; [|apply length_firstn].
    apply Collect_yields.
    destruct Hfin as (it' & Hp & Hc).
    eapply Take_closes; eauto.
  - intros k [Hk0 Hk].
    apply Collect_yields.
    destruct (Seq_pulls (S (Z.to_nat k)) 0) as (it' & Hp);
      [unfold min_int; lia|lia|].
    rewrite <- (firstn_ints 0 (S (Z.to_nat k)) (Z.to_nat k)) by lia.
    eapply Take_closes; [exact Hp| |exact Hk].
    right. rewrite ints_length. lia.
Qed.

Lemma Take_Collect_prefix_witness :
  closes_after (Range 0 3) [0; 1; 2] /\
  yields (Collect (Take (Range 0 3) 2)) (Slice [0; 1]) /\
  yields (Collect (Take Seq 3)) (Slice [0; 1; 2]).
Proof.
  assert (H : closes_after (Range 0 3) [0; 1; 2])
    by (eexists; split; [pull_all|reflexivity]).
  assert (B : 0 <= 2 <= max_int) by (unfold max_int; lia).
  assert (B' : 0 <= 3 <= max_int) by (unfold max_int; lia).
  split; [exact H|]. split.
  - exact (proj1 (proj1 Take_Collect_prefix (Range 0 3) [0; 1; 2] 2 H B)).
  - exact (proj2 Take_Collect_prefix 3 B').
Defined.

(** C2 (as amended).  Whatever is behind it and whoever receives from it,
    the goroutine of [Take(it,n)] passes on, in order, a prefix of what it
    has received from [it], at most [n] elements; it has received at most
    one element more than it has passed on; it closes its channel only when
    [it] is closed or when it has received the element after the last one
    it may pass on, and in the latter case always. *)
Theorem Take_frame it n out X :
  n <= max_int ->
  pulls (Take it n) out X ->
  exists t' it' L,
    X = t' :: it' /\
    pulls it L it' /\
    out = firstn (length out) L /\
    (length out <= Z.to_nat n)%nat /\
    (length L <= length out + 1)%nat /\
    (closed X = true -> closed it' = true \/ length L = S (Z.to_nat n)) /\
    (length L = S (Z.to_nat n) -> closed X = true).
Proof.
  intros Hn Hp.
  destruct (pulls_project _ _ _ Hp (Node (TakeG n 0) AtRecv) it eq_refl)
    as (h & t' & it' & -> & Hr & Hs & Hg & He).
  destruct (proj1 (take_history n Hn h 0 t' ltac:(lia)) Hr)
    as (H1 & H2 & H3 & H4 & H5).
  rewrite Z.sub_0_r in *. rewrite Hs in *.
  exists t', it', (gots h). repeat split; auto.
  - simpl. destruct (point t') eqn:Ep; try discriminate.
    intros _. destruct (H4 eq_refl) as [Heos|Hlen]; auto.
  - intros Hl. simpl. now rewrite (H5 Hl).
Qed.

Lemma Take_frame_witness :
  exists X,
    2 <= max_int /\
    pulls (Take (Range 0 5) 2) [0; 1] X /\
    closed X = true /\
    exists t' it' L,
      X = t' :: it' /\ pulls (Range 0 5) L it' /\
      [0; 1] = firstn 2 L /\ (length L <= 3)%nat.
Proof.
  assert (B : 2 <= max_int) by (unfold max_int; lia).
  assert (P : exists X, pulls (Take (Range 0 5) 2) [0; 1] X /\
                        closed X = true).
  { eexists. split.
    - eapply pulls_inner with (i := O); [vm_compute; reflexivity|].
      eapply pulls_elem; [vm_compute; reflexivity|].
      eapply pulls_inner with (i := O); [vm_compute; reflexivity|].
      eapply pulls_elem; [vm_compute; reflexivity|].
      eapply pulls_inner with (i := O); [vm_compute; reflexivity|].
      apply pulls_done.
    - reflexivity. }
  destruct P as (X & HP & HC).
  destruct (Take_frame (Range 0 5) 2 [0; 1] X B HP)
    as (t' & it' & L & E & HL & Hpre & _ & Hlen & _ & _).
  exists X. split; [exact B|]. split; [exact HP|]. split; [exact HC|].
  exists t', it', L. auto.
Defined.

Lemma Take_Seq_zero_states sched :
  forall net X,
    run sched net = Some X ->
    net = Take Seq 0 \/
    net = [Node (TakeG 0 0) Returned; Node (SeqG 1) (AtSend 1)] ->
    X = Take Seq 0 \/
    X = [Node (TakeG 0 0) Returned; Node (SeqG 1) (AtSend 1)].
Proof.
  induction sched as [|i sched IH]; simpl; intros net X Hrun Hnet.
  - now injection Hrun as <-.
  - destruct (step_at i net) as [net'|] eqn:E; [|discriminate].
    apply (IH net' X Hrun).
    destruct Hnet as [-> | ->]; destruct i as [|[|i]];
      try discriminate; vm_compute in E; try discriminate.
    injection E as <-. now right.
Qed.

(** C2 as stated fails for [Seq().Take(0)]: its channel is not closed from
    the start, and it cannot be closed with [Seq()] left as it was: the one
    rendezvous that closes it takes 0 out of [Seq()], whose counter is at 1
    afterwards. *)
Lemma Take_zero_consumes :
  closed (Take Seq 0) = false /\
  ~ (exists t', reach (Take Seq 0) (t' :: Seq) /\
                closed (t' :: Seq) = true) /\
  run [0%nat] (Take Seq 0) =
    Some [Node (TakeG 0 0) Returned; Node (SeqG 1) (AtSend 1)].
Proof.
  split; [reflexivity|]. split; [|reflexivity].
  intros (t' & (sched & Hrun) & Hc).
  destruct (Take_Seq_zero_states sched _ _ Hrun (or_introl eq_refl))
    as [E|E].
  - injection E as ->. discriminate.
  - discriminate.
Qed.

(** C3.  Reduce on a finite sequence with elements [L] returns the left
    fold of [fn] over [L] from [init]: [acc := fn(acc, x)] for each [x] in
    the order of emission. *)
Theorem Reduce_fold it L init fn :
  closes_after it L ->
  yields (Reduce it init fn) (Int (fold_left fn L init)).
Proof. intros H. now apply Reduce_yields. Qed.

Lemma Reduce_fold_witness :
  closes_after (Range 1 4) [1; 2; 3] /\
  yields (Reduce (Range 1 4) 1 (fun acc cur => wrap (acc * cur))) (Int 6).
Proof.
  assert (H : closes_after (Range 1 4) [1; 2; 3])
    by (eexists; split; [pull_all|reflexivity]).
  split; [exact H|].
  exact (Reduce_fold (Range 1 4) [1; 2; 3] 1
           (fun acc cur => wrap (acc * cur)) H).
Defined.

(** C4.  Map followed by Collect on a finite sequence with elements [L]
    returns a slice of the same length whose [i]-th element is [fn] of the
    [i]-th element of [L]. *)
Theorem Map_Collect it L fn :
  closes_after it L ->
  yields (Collect (Map it fn)) (Slice (map fn L)) /\
  length (map fn L) = length L /\
  (forall i x, nth_error L i = Some x ->
               nth_error (map fn L) i = Some (fn x)).
Proof.
  intros H. split; [|split].
  - apply Collect_yields. now apply Map_closes.
  - apply length_map.
  - intros i x Hx. now apply map_nth_error.
Qed.

Lemma Map_Collect_witness :
  closes_after (Range 1 4) [1; 2; 3] /\
  yields (Collect (Map (Range 1 4) (fun x => wrap (x * x)))) (Slice [1; 4; 9]).
Proof.
  assert (H : closes_after (Range 1 4) [1; 2; 3])
    by (eexists; split; [pull_all|reflexivity]).
  split; [exact H|].
  exact (proj1 (Map_Collect (Range 1 4) [1; 2; 3]
                  (fun x => wrap (x * x)) H)).
Defined.

(** C5.  Filter followed by Collect on a finite sequence with elements [L]
    returns the elements of [L] that satisfy [pred], in their order in [L];
    the slice is no longer than [L]. *)
Theorem Filter_Collect it L pred :
  closes_after it L ->
  yields (Collect (Filter it pred)) (Slice (filter pred L)) /\
  (forall x, In x (filter pred L) <-> In x L /\ pred x = true) /\
  (length (filter pred L) <= length L)%nat.
Proof.
  intros H. split; [|split].
  - apply Collect_yields. now apply Filter_closes.
  - intros x. apply filter_In.
  - apply filter_length_le.
Qed.

Lemma Filter_Collect_witness :
  closes_after (Range 0 5) [0; 1; 2; 3; 4] /\
  yields (Collect (Filter (Range 0 5) Z.even)) (Slice [0; 2; 4]).
Proof.
  assert (H : closes_after (Range 0 5) [0; 1; 2; 3; 4])
    by (eexists; split; [pull_all|reflexivity]).
  split; [exact H|].
  exact (proj1 (Filter_Collect (Range 0 5) [0; 1; 2; 3; 4] Z.even H)).
Defined.

(** C6.  Drop followed by Collect on a finite sequence with elements [L]
    returns [L] without its first [n] elements (nothing when [L] is
    shorter), in order, so that its length is [max(0, len L - n)]; for
    [n <= 0] Drop passes everything on and the result is [L]. *)
Theorem Drop_Collect it L n :
  closes_after it L -> n <= max_int ->
  yields (Collect (Drop it n)) (Slice (skipn (Z.to_nat n) L)) /\
  Z.of_nat (length (skipn (Z.to_nat n) L)) =
    Z.max 0 (Z.of_nat (length L) - Z.max n 0) /\
  (n <= 0 -> skipn (Z.to_nat n) L = L) /\
  (0 <= n ->
   Z.of_nat (length (skipn (Z.to_nat n) L)) =
     Z.max 0 (Z.of_nat (length L) - n)) /\
  (Z.of_nat (length L) < n -> skipn (Z.to_nat n) L = []).
Proof.
  intros H Hn. split; [|split; [|split; [|split]]].
  - apply Collect_yields. now apply Drop_closes.
  - rewrite length_skipn. lia.
  - intros Hle. replace (Z.to_nat n) with O by lia. reflexivity.
  - intros Hle. rewrite length_skipn. lia.
  - intros Hlt. apply skipn_all2. lia.
Qed.

Lemma Drop_Collect_witness :
  closes_after (Range 0 5) [0; 1; 2; 3; 4] /\
  yields (Collect (Drop (Range 0 5) 2)) (Slice [2; 3; 4]).
Proof.
  assert (H : closes_after (Range 0 5) [0; 1; 2; 3; 4])
    by (eexists; split; [pull_all|reflexivity]).
  assert (B : 2 <= max_int) by (unfold max_int; lia).
  split; [exact H|].
  exact (proj1 (Drop_Collect (Range 0 5) [0; 1; 2; 3; 4] 2 H B)).
Defined.

(** C7.  [Range(a,b)] sends exactly the integers [a, a+1, ..., b-1], in
    increasing order, and then closes; when [a >= b] its channel is closed
    from the start and carries nothing. *)
Theorem Range_elements a b :
  in_range a -> in_range b ->
  closes_after (Range a b) (ints a (Z.to_nat (b - a))) /\
  (forall L, closes_after (Range a b) L -> L = ints a (Z.to_nat (b - a))) /\
  (forall x, In x (ints a (Z.to_nat (b - a))) <-> a <= x < b) /\
  (b <= a -> closed (Range a b) = true /\ ints a (Z.to_nat (b - a)) = []).
Proof.
  intros [Ha _] [_ Hb].
  pose proof (Range_closes a b Ha Hb) as Hc.
  split; [exact Hc|]. split; [|split].
  - intros L HL. eapply closes_after_unique; eassumption.
  - intros x. rewrite ints_In. lia.
  - intros Hle. split.
    + unfold Range, range_head. destruct (Z.ltb_spec a b); [lia|reflexivity].
    + replace (Z.to_nat (b - a)) with O by lia. reflexivity.
Qed.

Lemma Range_elements_witness :
  in_range 10 /\ in_range 13 /\
  closes_after (Range 10 13) [10; 11; 12] /\
  closed (Range 13 13) = true.
Proof.
  assert (A : in_range 10) by (unfold in_range, min_int, max_int; lia).
  assert (B : in_range 13) by (unfold in_range, min_int, max_int; lia).
  split; [exact A|]. split; [exact B|]. split.
  - exact (proj1 (Range_elements 10 13 A B)).
  - exact (proj1 (proj2 (proj2 (proj2 (Range_elements 13 13 B B)))
                    ltac:(lia))).
Defined.

(** C8.  Collect and Reduce return on every sequence that closes after
    finitely many elements: the result stays reachable under every
    schedule and is reached under every fair one.  On a sequence whose
    channel is never closed, such as [Seq()], also behind Map, Filter or
    Drop, the caller never returns, whatever the schedule. *)
Theorem terminal_operations :
  (forall it L init fn,
     closes_after it L ->
     yields (Collect it) (Slice L) /\
     yields (Reduce it init fn) (Int (fold_left fn L init)) /\
     (forall sigma, fair (Collect it) sigma ->
        exists k, result (exec sigma k (Collect it)) = Some (Slice L)) /\
     (forall sigma, fair (Reduce it init fn) sigma ->
        exists k, result (exec sigma k (Reduce it init fn)) =
                  Some (Int (fold_left fn L init)))) /\
  (forall it init fn,
     never_closes it ->
     blocks_forever (Collect it) /\
     blocks_forever (Reduce it init fn) /\
     (forall sigma k, result (exec sigma k (Collect it)) = None) /\
     (forall sigma k, result (exec sigma k (Reduce it init fn)) = None)) /\
  never_closes Seq /\
  (forall it fn pred n,
     never_closes it ->
     never_closes (Map it fn) /\ never_closes (Filter it pred) /\
     never_closes (Drop it n)).
Proof.
  split; [|split; [|split]].
  - intros it L init fn H.
    pose proof (Collect_yields it L H) as HC.
    pose proof (Reduce_yields it L H init fn) as HR.
    split; [exact HC|]. split; [exact HR|]. split.
    + apply HC.
    + apply HR.
  - intros it init fn H.
    assert (HC : blocks_forever (Collect it))
      by (apply caller_blocks; simpl; eauto).
    assert (HR : blocks_forever (Reduce it init fn))
      by (apply caller_blocks; simpl; eauto).
    split; [exact HC|]. split; [exact HR|]. split.
    + intros sigma k. apply HC, exec_reach.
    + intros sigma k. apply HR, exec_reach.
  - apply Seq_never_closes.
  - intros it fn pred n H.
    repeat split; apply never_closes_head; auto.
Qed.

Lemma terminal_operations_witness :
  closes_after (Range 0 3) [0; 1; 2] /\
  fair (Collect (Range 0 3)) (fun _ => O) /\
  yields (Collect (Range 0 3)) (Slice [0; 1; 2]) /\
  yields (Reduce (Range 0 3) 0 Z.add) (Int 3) /\
  (exists k, result (exec (fun _ => O) k (Collect (Range 0 3))) =
             Some (Slice [0; 1; 2])) /\
  blocks_forever (Collect Seq) /\
  blocks_forever (Reduce (Map Seq Z.succ) 0 Z.add).
Proof.
  assert (H : closes_after (Range 0 3) [0; 1; 2])
    by (eexists; split; [pull_all|reflexivity]).
  assert (F : fair (Collect (Range 0 3)) (fun _ => O)).
  { intros i k Hi. exists k. split; [lia|]. simpl in Hi. lia. }
  pose proof (proj1 terminal_operations (Range 0 3) [0; 1; 2] 0 Z.add H)
    as (H1 & H2 & H3 & _).
  pose proof (proj1 (proj2 (proj2 terminal_operations))) as HS.
  pose proof (proj1 (proj2 (proj2 (proj2 terminal_operations))
                       Seq Z.succ Z.even 0 HS)) as HM.
  pose proof (proj1 (proj1 (proj2 terminal_operations) Seq 0 Z.add HS))
    as H4.
  pose proof (proj1 (proj2 (proj1 (proj2 terminal_operations)
                              (Map Seq Z.succ) 0 Z.add HM))) as H5.
  exact (conj H (conj F (conj H1 (conj H2 (conj (H3 _ F) (conj H4 H5)))))).
Defined.

(** C9 (as amended).  For every [int] [n], [isPrime(n)] returns, and it
    returns true exactly when no integer in [[2, floor(sqrt n)]] divides
    [n]; [n > 1] is not tested, so it returns true for every [n <= 1]. *)
Theorem isPrime_trial_division n :
  in_range n ->
  (isPrime n = Ret true <->
   forall i, 2 <= i <= Z.sqrt n -> ~ (i | n)) /\
  (isPrime n = Ret true \/ isPrime n = Ret false) /\
  (n <= 1 -> isPrime n = Ret true).
Proof.
  intros Hr.
  assert (Htot : exists b, isPrime n = Ret b).
  { destruct (Z.lt_ge_cases n 4) as [Hs|Hb].
    - exists true. now apply isPrime_small.
    - apply isPrime_loop_total; [assumption|lia|unfold isPrime_fuel; lia]. }
  split; [|split].
  - split.
    + intros Htrue i [Hi Hs] Hdiv.
      assert (Hpos : 0 <= n).
      { destruct (Z.lt_ge_cases n 0) as [Hneg|]; [|assumption].
        rewrite Z.sqrt_neg in Hs by assumption. lia. }
      assert (Hii : i * i <= n) by (apply Z.sqrt_le_square; lia).
      rewrite (isPrime_false n Hr i Hi Hii Hdiv) in Htrue. discriminate.
    + apply isPrime_true. assumption.
  - destruct Htot as ([|] & E); auto.
  - intros Hle. apply isPrime_small. lia.
Qed.

Lemma isPrime_trial_division_witness :
  in_range 97 /\
  (isPrime 97 = Ret true <->
   forall i, 2 <= i <= Z.sqrt 97 -> ~ (i | 97)).
Proof.
  assert (A : in_range 97) by (unfold in_range, min_int, max_int; lia).
  split; [exact A|].
  exact (proj1 (isPrime_trial_division 97 A)).
Defined.

(** C9 as stated fails at 1 (and at every [n <= 1]): [isPrime(1)] is true,
    although [1 > 1] is not. *)
Lemma isPrime_one :
  ~ (isPrime 1 = Ret true <->
     1 > 1 /\ forall i, 2 <= i <= Z.sqrt 1 -> ~ (i | 1)).
Proof.
  intros [H _]. destruct (H eq_refl) as [Habs _]. lia.
Qed.

(** C10.  The result of a program does not depend on the schedule: if one
    schedule makes the caller return [r], then under any other schedule the
    caller returns nothing but [r], that schedule can be continued until it
    does, and every fair endless schedule makes it return [r]. *)
Theorem scheduling_independent (net : network) s1 s2 n1 n2 r :
  run s1 net = Some n1 -> result n1 = Some r ->
  run s2 net = Some n2 ->
  (forall r', result n2 = Some r' -> r' = r) /\
  (exists s3 n3, run (s2 ++ s3) net = Some n3 /\ result n3 = Some r) /\
  (forall sigma, fair net sigma ->
     exists k, result (exec sigma k net) = Some r).
Proof.
  intros H1 Hr H2.
  destruct (confluence s1 net n1 H1 n2 (ex_intro _ s2 H2))
    as (c & Hc1 & (s3 & Hc2)).
  pose proof (result_stable _ _ _ Hr Hc1) as Hrc.
  split; [|split].
  - intros r' Hr'.
    pose proof (result_stable _ _ _ Hr' (ex_intro _ s3 Hc2)). congruence.
  - exists s3, c. split; [|exact Hrc].
    now rewrite (run_app _ _ _ _ H2).
  - intros sigma Hf.
    eapply fair_returns; [exists s1; exact H1|exact Hr|exact Hf].
Qed.

Lemma scheduling_independent_witness :
  exists n1 n2 s3 n3,
    let net := Collect (Map (Map (Range 0 2) Z.succ) Z.succ) in
    run [2; 1; 0; 2; 1; 0; 2; 1; 0]%nat net = Some n1 /\
    result n1 = Some (Slice [2; 3]) /\
    run [2; 1; 2]%nat net = Some n2 /\
    result n2 = None /\
    run ([2; 1; 2]%nat ++ s3) net = Some n3 /\
    result n3 = Some (Slice [2; 3]).
Proof.
  pose (net := Collect (Map (Map (Range 0 2) Z.succ) Z.succ)).
  pose (n1 := match run [2; 1; 0; 2; 1; 0; 2; 1; 0]%nat net with
              | Some n => n
              | None => []
              end).
  pose (n2 := match run [2; 1; 2]%nat net with Some n => n | None => [] end).
  assert (H1 : run [2; 1; 0; 2; 1; 0; 2; 1; 0]%nat net = Some n1)
    by reflexivity.
  assert (Hr : result n1 = Some (Slice [2; 3])) by reflexivity.
  assert (H2 : run [2; 1; 2]%nat net = Some n2) by reflexivity.
  destruct (scheduling_independent net _ _ n1 n2 _ H1 Hr H2)
    as (_ & (s3 & n3 & H3 & Hr3) & _).
  exists n1, n2, s3, n3. repeat split; assumption || reflexivity.
Defined.

(** ** Streams: the combinators on sequences that need not close *)

Section Streams.

Lemma has_upstream_recv g m :
  has_upstream g = true -> has_upstream (body (after_recv g m)) = true.
Proof.
  destruct g, m; simpl; try discriminate; auto;
    repeat match goal with
           | |- context [if ?b then _ else _] => destruct b
           end; auto.
Qed.

Lemma has_upstream_send g :
  has_upstream g = true ->
  has_upstream (body (after_send g)) = true /\
  (forall v, point (after_send g) <> AtSend v).
Proof.
  destruct g; simpl; try discriminate; intros _; split; auto; discriminate.
Qed.

(** Whatever the history of a goroutine with an upstream, what it has sent
    is a prefix of what [transduce] computes from what it has received, and
    it holds at most one element back. *)
Lemma history_transduce h :
  forall t t',
    has_upstream (body t) = true ->
    node_run t h = Some t' ->
    match point t with
    | AtRecv => out_inv (fst (fst (transduce t (gots h)))) h
    | AtSend v =>
        out_inv (v :: fst (fst (transduce (after_send (body t)) (gots h)))) h
    | Returned => h = []
    end.
Proof.
  induction h as [|e h IH]; intros [g q] t' Hk Hr.
  - destruct q; simpl; unfold out_inv; simpl; auto.

  - destruct q as [|v|]; simpl in Hr.
    + destruct e as [[x|]|w]; try discriminate.
      * pose proof (IH (after_recv g (Some x)) t'
                      (has_upstream_recv g (Some x) Hk) Hr) as H.
        cbn [point gots transduce body].
        destruct (point (after_recv g (Some x))) as [|v|] eqn:Ep.
        -- exact H.
        -- destruct (transduce (after_send (body (after_recv g (Some x))))
                       (gots h)) as [[out t1] rest].
           exact H.
        -- subst h. simpl. unfold out_inv. simpl. auto.
      * rewrite after_recv_eos in Hr.
        apply node_run_returned in Hr. destruct Hr as [-> _].
        simpl. unfold out_inv. simpl. auto.
    + destruct e as [m|w]; try discriminate.
      destruct (Z.eqb_spec w v) as [->|]; [|discriminate].
      destruct (has_upstream_send g Hk) as [Hk' Hns].
      pose proof (IH (after_send g) t' Hk' Hr) as H.
      cbn [point gots body].
      destruct (point (after_send g)) as [|u|] eqn:Ep.
      * destruct H as [H1 H2]. unfold out_inv. simpl.
        split; [now f_equal|lia].
      * now destruct (Hns u).
      * subst h. destruct (after_send g) as [g' q']. simpl in Ep. subst q'.
        simpl. unfold out_inv. simpl. auto.
    + destruct e; discriminate.
Qed.

(** A goroutine parked at its receive in front of an iterator: all it can
    be made to send is a prefix, short by at most one element, of its
    output on something the iterator can deliver. *)
Lemma stream_sound t it out X :
  has_upstream (body t) = true -> point t = AtRecv ->
  pulls (t :: it) out X ->
  exists L it',
    pulls it L it' /\
    out = firstn (length out) (fst (fst (transduce t L))) /\
    (length (fst (fst (transduce t L))) <= length out + 1)%nat.
Proof.
  intros Hk Ht Hp.
  destruct (pulls_project _ _ _ Hp t it eq_refl)
    as (h & t' & it' & _ & Hr & Hs & Hg & _).
  pose proof (history_transduce h t t' Hk Hr) as H.
  rewrite Ht in H. destruct H as [H1 H2]. rewrite Hs in *.
  exists (gots h), it'. auto.
Qed.

Lemma stream_complete t it L it' :
  pulls it L it' ->
  exists X, pulls (t :: it) (fst (fst (transduce t L))) X.
Proof.
  intros Hp. destruct (pulls_through it L it' Hp t) as (it'' & H & _).
  eauto.
Qed.

(** In every state a goroutine with an upstream has sent all it was due
    to send for what it has received, but for the one element it may be
    parked with at its send. *)
Lemma history_state h :
  forall t t',
    has_upstream (body t) = true ->
    node_run t h = Some t' ->
    due t (gots h) = sents h ++ on_hands t'.
Proof.
  induction h as [|e h IH]; intros [g q] t' Hk Hr.
  - simpl in Hr. injection Hr as <-.
    destruct q; reflexivity.
  - destruct q as [|v|]; simpl in Hr.
    + destruct e as [[x|]|w]; try discriminate.
      * pose proof (IH (after_recv g (Some x)) t'
                      (has_upstream_recv g (Some x) Hk) Hr) as H.
        unfold due in *. cbn [point gots transduce body sents].
        destruct (point (after_recv g (Some x))) as [|v|] eqn:Ep.
        -- exact H.
        -- destruct (transduce (after_send (body (after_recv g (Some x))))
                       (gots h)) as [[out t1] rest].
           exact H.
        -- rewrite <- H. destruct (gots h); cbn [transduce];
             [reflexivity|rewrite Ep; reflexivity].
      * rewrite after_recv_eos in Hr.
        apply node_run_returned in Hr. destruct Hr as [-> ->]. reflexivity.
    + destruct e as [m|w]; try discriminate.
      destruct (Z.eqb_spec w v) as [->|]; [|discriminate].
      destruct (has_upstream_send g Hk) as [Hk' Hns].
      pose proof (IH (after_send g) t' Hk' Hr) as H.
      unfold due in *. cbn [point gots body sents].
      destruct (point (after_send g)) as [|u|] eqn:Ep.
      * simpl. now f_equal.
      * now destruct (Hns u).
      * destruct (after_send g) as [g1 q1] eqn:Eg. simpl in Ep. subst q1.
        apply node_run_returned in Hr. destruct Hr as [-> ->].
        reflexivity.
    + destruct e; discriminate.
Qed.

(** The same for a goroutine parked at its receive in front of an
    iterator, in the state [t' :: it'] the two have come to: [L] is what
    the iterator behind has been made to deliver to reach [it']. *)
Lemma stream_tied t it out X :
  has_upstream (body t) = true -> point t = AtRecv ->
  pulls (t :: it) out X ->
  exists t' L it',
    X = t' :: it' /\
    pulls it L it' /\
    fst (fst (transduce t L)) = out ++ on_hands t'.
Proof.
  intros Hk Ht Hp.
  destruct (pulls_project _ _ _ Hp t it eq_refl)
    as (h & t' & it' & -> & Hr & Hs & Hg & _).
  pose proof (history_state h t t' Hk Hr) as H.
  unfold due in H. rewrite Ht, Hs in H.
  exists t', (gots h), it'. auto.
Qed.

Lemma on_hands_short t : (length (on_hands t) <= 1)%nat.
Proof. unfold on_hands. destruct (point t); simpl; lia. Qed.

Lemma prefix_of_app (out rest : list Z) M :
  M = out ++ rest -> out = firstn (length out) M.
Proof.
  intros ->. rewrite firstn_app, Nat.sub_diag, firstn_all. simpl.
  now rewrite app_nil_r.
Qed.

End Streams.

(** Evaluates a derivation of [pulls] on a concrete iterator: an offer
    when there is one, else the enabled rendezvous nearest to the
    channel. *)
Ltac pull_steps :=
  repeat first
    [ eapply pulls_elem; [vm_compute; reflexivity|]
    | eapply pulls_inner with (i := 0%nat); [vm_compute; reflexivity|]
    | eapply pulls_inner with (i := 1%nat); [vm_compute; reflexivity|]
    | eapply pulls_inner with (i := 2%nat); [vm_compute; reflexivity|] ];
  apply pulls_done.

(** ** Further properties of iter.go *)

(** X1.  Map is lazy.  On any sequence, closed or not: whatever the
    upstream can deliver, Map can deliver its image under [fn]; and in
    every state [t' :: it'] that Map and its upstream come to, the image of
    what the upstream has delivered to get to [it'] is what Map has
    delivered, followed by the one element Map is parked with at its send,
    if it is: Map is never more than one element ahead of its consumer. *)
Theorem Map_stream it fn :
  (forall L it', pulls it L it' ->
     exists X, pulls (Map it fn) (map fn L) X) /\
  (forall out X, pulls (Map it fn) out X ->
     exists t' L it',
       X = t' :: it' /\
       pulls it L it' /\
       map fn L = out ++ on_hands t' /\
       (length (on_hands t') <= 1)%nat /\
       out = map fn (firstn (length out) L) /\
       (length L <= length out + 1)%nat).
Proof.
  split.
  - intros L it' Hp.
    destruct (stream_complete (Node (MapG fn) AtRecv) it L it' Hp) as (X & H).
    rewrite transduce_map in H. eauto.
  - intros out X Hp.
    destruct (stream_tied (Node (MapG fn) AtRecv) it out X eq_refl eq_refl Hp)
      as (t' & L & it' & E & HL & H).
    rewrite transduce_map in H. simpl in H.
    pose proof (on_hands_short t') as Hs.
    exists t', L, it'. repeat split; auto.
    + rewrite <- firstn_map. eapply prefix_of_app; eassumption.
    + apply (f_equal (@length Z)) in H.
      rewrite length_map, length_app in H. lia.
Qed.

Lemma Map_stream_witness :
  (exists it', pulls Seq [0; 1; 2] it') /\
  (exists X, pulls (Map Seq Z.succ) [1; 2; 3] X).
Proof.
  assert (H : exists it', pulls Seq [0; 1; 2] it')
    by (eexists; pull_all).
  split; [exact H|].
  destruct H as (it' & H).
  exact (proj1 (Map_stream Seq Z.succ) [0; 1; 2] it' H).
Defined.

(** X2.  Filter is lazy.  On any sequence: whatever the upstream can
    deliver, Filter can deliver the elements of it that satisfy [pred]; and
    in every state [t' :: it'] that Filter and its upstream come to, the
    satisfying elements among what the upstream has delivered to get to
    [it'] are what Filter has delivered, followed by the one element Filter
    is parked with at its send, if it is. *)
Theorem Filter_stream it pred :
  (forall L it', pulls it L it' ->
     exists X, pulls (Filter it pred) (filter pred L) X) /\
  (forall out X, pulls (Filter it pred) out X ->
     exists t' L it',
       X = t' :: it' /\
       pulls it L it' /\
       filter pred L = out ++ on_hands t' /\
       (length (on_hands t') <= 1)%nat /\
       out = firstn (length out) (filter pred L) /\
       (length (filter pred L) <= length out + 1)%nat).
Proof.
  split.
  - intros L it' Hp.
    destruct (stream_complete (Node (FilterG pred) AtRecv) it L it' Hp)
      as (X & H).
    rewrite transduce_filter in H. eauto.
  - intros out X Hp.
    destruct (stream_tied (Node (FilterG pred) AtRecv) it out X
                eq_refl eq_refl Hp) as (t' & L & it' & E & HL & H).
    rewrite transduce_filter in H. simpl in H.
    pose proof (on_hands_short t') as Hs.
    exists t', L, it'. repeat split; auto.
    + eapply prefix_of_app; eassumption.
    + rewrite H, length_app. lia.
Qed.

Lemma Filter_stream_witness :
  (exists it', pulls Seq [0; 1; 2; 3; 4] it') /\
  (exists X, pulls (Filter Seq Z.even) [0; 2; 4] X).
Proof.
  assert (H : exists it', pulls Seq [0; 1; 2; 3; 4] it')
    by (eexists; pull_all).
  split; [exact H|].
  destruct H as (it' & H).
  exact (proj1 (Filter_stream Seq Z.even) [0; 1; 2; 3; 4] it' H).
Defined.

(** X3.  Drop is lazy.  On any sequence: whatever the upstream can
    deliver, Drop can deliver all of it but the first [max(n,0)] elements;
    and in every state [t' :: it'] that Drop and its upstream come to, what
    the upstream has delivered to get to [it'], less its first [max(n,0)]
    elements, is what Drop has delivered, followed by the one element Drop
    is parked with at its send, if it is. *)
Theorem Drop_stream it n :
  n <= max_int ->
  (forall L it', pulls it L it' ->
     exists X, pulls (Drop it n) (skipn (Z.to_nat n) L) X) /\
  (forall out X, pulls (Drop it n) out X ->
     exists t' L it',
       X = t' :: it' /\
       pulls it L it' /\
       skipn (Z.to_nat n) L = out ++ on_hands t' /\
       (length (on_hands t') <= 1)%nat /\
       out = firstn (length out) (skipn (Z.to_nat n) L) /\
       (length (skipn (Z.to_nat n) L) <= length out + 1)%nat).
Proof.
  intros Hn. split.
  - intros L it' Hp.
    destruct (stream_complete (Node (DropG n 0) AtRecv) it L it' Hp)
      as (X & H).
    destruct (transduce_drop n L Hn 0 ltac:(lia)) as (c & E).
    rewrite E, Z.sub_0_r in H. eauto.
  - intros out X Hp.
    destruct (stream_tied (Node (DropG n 0) AtRecv) it out X
                eq_refl eq_refl Hp) as (t' & L & it' & EX & HL & H).
    destruct (transduce_drop n L Hn 0 ltac:(lia)) as (c & E).
    rewrite E, Z.sub_0_r in H. simpl in H.
    pose proof (on_hands_short t') as Hs.
    exists t', L, it'. repeat split; auto.
    + eapply prefix_of_app; eassumption.
    + rewrite H, length_app. lia.
Qed.

Lemma Drop_stream_witness :
  2 <= max_int /\
  (exists it', pulls Seq [0; 1; 2; 3; 4] it') /\
  (exists X, pulls (Drop Seq 2) [2; 3; 4] X).
Proof.
  assert (B : 2 <= max_int) by (unfold max_int; lia).
  assert (H : exists it', pulls Seq [0; 1; 2; 3; 4] it')
    by (eexists; pull_all).
  split; [exact B|]. split; [exact H|].
  destruct H as (it' & H).
  exact (proj1 (Drop_stream Seq 2 B) [0; 1; 2; 3; 4] it' H).
Defined.

(** X4.  Take makes any sequence finite.  If the upstream can deliver more
    than [n] elements, closed or not, [Take(it,n)] closes after the first
    [max(n,0)] of them and [Take(it,n).Collect()] returns them. *)
Theorem Take_finitizes it L it' n :
  pulls it L it' -> (Z.to_nat n < length L)%nat -> n <= max_int ->
  closes_after (Take it n) (firstn (Z.to_nat n) L) /\
  yields (Collect (Take it n)) (Slice (firstn (Z.to_nat n) L)).
Proof.
  intros Hp Hlen Hn.
  assert (H : closes_after (Take it n) (firstn (Z.to_nat n) L))
    by (eapply Take_closes; eauto).
  split; [exact H|]. now apply Collect_yields.
Qed.

Lemma Take_finitizes_witness :
  exists it',
    pulls (Drop Seq 2) [2; 3; 4] it' /\
    yields (Collect (Take (Drop Seq 2) 2)) (Slice [2; 3]).
Proof.
  assert (H : exists it', pulls (Drop Seq 2) [2; 3; 4] it')
    by (eexists; pull_steps).
  destruct H as (it' & H). exists it'. split; [exact H|].
  exact (proj2 (Take_finitizes (Drop Seq 2) [2; 3; 4] it' 2 H
                  ltac:(simpl; lia) ltac:(unfold max_int; lia))).
Defined.

(** X5.  The combinators chain.  If a sequence closes after the elements
    [L], then behind Map, Filter, Take and Drop it is again a sequence that
    closes, after [map fn L], [filter pred L], the first [max(n,0)] and all
    but the first [max(n,0)] elements of [L]. *)
Theorem combinators_close it L :
  closes_after it L ->
  (forall fn, closes_after (Map it fn) (map fn L)) /\
  (forall pred, closes_after (Filter it pred) (filter pred L)) /\
  (forall n, n <= max_int ->
             closes_after (Take it n) (firstn (Z.to_nat n) L)) /\
  (forall n, n <= max_int ->
             closes_after (Drop it n) (skipn (Z.to_nat n) L)).
Proof.
  intros H. repeat split.
  - intros fn. now apply Map_closes.
  - intros pred. now apply Filter_closes.
  - intros n Hn. destruct H as (it' & Hp & Hc). eapply Take_closes; eauto.
  - intros n Hn. now apply Drop_closes.
Qed.

Lemma combinators_close_witness :
  closes_after (Range 0 10) [0; 1; 2; 3; 4; 5; 6; 7; 8; 9] /\
  closes_after
    (Take (Map (Filter (Drop (Range 0 10) 3) Z.even) (fun x => wrap (x * x))) 2)
    [16; 36].
Proof.
  assert (B : forall n, 0 <= n <= 3 -> n <= max_int)
    by (unfold max_int; lia).
  assert (H : closes_after (Range 0 10) [0; 1; 2; 3; 4; 5; 6; 7; 8; 9])
    by (eexists; split; [pull_all|reflexivity]).
  split; [exact H|].
  pose proof (proj2 (proj2 (proj2 (combinators_close _ _ H))) 3
                (B 3 ltac:(lia))) as H1.
  pose proof (proj1 (proj2 (combinators_close _ _ H1)) Z.even) as H2.
  pose proof (proj1 (combinators_close _ _ H2) (fun x => wrap (x * x)))
    as H3.
  exact (proj1 (proj2 (proj2 (combinators_close _ _ H3))) 2
           (B 2 ltac:(lia))).
Defined.

Section Leak.

Lemma abandoned_step down :
  forall c p up v i net',
    point c = Returned -> point p = AtSend v ->
    step_at i (down ++ c :: p :: up) = Some net' ->
    exists down' up',
      net' = down' ++ c :: p :: up' /\ length down' = length down.
Proof.
  induction down as [|d down IH]; intros c p up v i net' Hc Hp Hs.
  - simpl in Hs. destruct i as [|[|i]].
    + apply step_at_zero_recv in Hs. congruence.
    + apply step_at_succ in Hs. destruct Hs as (tl' & Hs & _).
      apply step_at_zero_recv in Hs. congruence.
    + apply step_at_succ in Hs. destruct Hs as (tl' & Hs & ->).
      apply step_at_succ in Hs. destruct Hs as (up' & Hs & ->).
      exists [], up'. auto.
  - simpl in Hs. destruct i as [|i].
    + apply step_at_zero in Hs.
      destruct Hs as (p0 & up0 & p0' & d' & E & Hh & ->).
      destruct down as [|d1 down].
      * simpl in E. injection E as <- <-.
        unfold handoff in Hh. rewrite Hc in Hh.
        destruct (point d); try discriminate. injection Hh as <- <-.
        exists [after_recv (body d) None], up. auto.
      * simpl in E. injection E as <- <-.
        exists (d' :: p0' :: down), up. auto.
    + apply step_at_succ in Hs. destruct Hs as (tl' & Hs & ->).
      destruct (IH c p up v i tl' Hc Hp Hs) as (down' & up' & -> & Hl).
      exists (d :: down'), up'. simpl. auto.
Qed.

End Leak.

(** X6.  The goroutine leak.  Once a consumer has returned, the goroutine
    parked at a send on its channel stays parked there with the same
    element, whatever happens in the rest of the network: after [Take] has
    closed, its upstream is blocked for ever. *)
Theorem abandoned_sender down c p up v net' :
  point c = Returned -> point p = AtSend v ->
  reach (down ++ c :: p :: up) net' ->
  exists down' up',
    net' = down' ++ c :: p :: up' /\ length down' = length down.
Proof.
  intros Hc Hp (sched & Hrun). revert down up Hrun.
  induction sched as [|i sched IH]; simpl; intros down up Hrun.
  - injection Hrun as <-. eauto.
  - destruct (step_at i (down ++ c :: p :: up)) as [n1|] eqn:E;
      [|discriminate].
    destruct (abandoned_step down c p up v i n1 Hc Hp E)
      as (down1 & up1 & -> & Hl).
    destruct (IH down1 up1 Hrun) as (down' & up' & -> & Hl').
    exists down', up'. split; [reflexivity|lia].
Qed.

Lemma abandoned_sender_witness :
  exists net',
    run [1; 0; 1; 0]%nat (Collect (Take Seq 0)) = None /\
    run [1; 0]%nat (Collect (Take Seq 0)) = Some net' /\
    result net' = Some (Slice []) /\
    exists down' up',
      net' = down' ++ Node (TakeG 0 0) Returned ::
                      Node (SeqG 1) (AtSend 1) :: up'.
Proof.
  exists [Node (CollectG []) Returned; Node (TakeG 0 0) Returned;
          Node (SeqG 1) (AtSend 1)].
  split; [reflexivity|]. split; [reflexivity|]. split; [reflexivity|].
  destruct (abandoned_sender [Node (CollectG []) AtRecv]
              (Node (TakeG 0 0) Returned) (Node (SeqG 1) (AtSend 1)) [] 1
              [Node (CollectG []) Returned; Node (TakeG 0 0) Returned;
               Node (SeqG 1) (AtSend 1)] eq_refl eq_refl)
    as (down' & up' & E & _).
  - exists [0%nat]. reflexivity.
  - exists down', up'. exact E.
Defined.

Section SeqElements.

Lemma wrap_add_l a b : wrap (wrap a + b) = wrap (a + b).
Proof.
  unfold wrap.
  replace ((a + 2 ^ 63) mod 2 ^ 64 - 2 ^ 63 + b + 2 ^ 63)
    with ((a + 2 ^ 63) mod 2 ^ 64 + b) by lia.
  rewrite Z.add_mod_idemp_l by lia.
  f_equal. f_equal. lia.
Qed.

Lemma map_wrap_ints a len :
  map wrap (ints (wrap a) len) = map wrap (ints a len).
Proof.
  unfold ints. rewrite !map_map. apply map_ext.
  intros k. apply wrap_add_l.
Qed.

Lemma Seq_delivers len :
  forall n, exists it',
    pulls [Node (SeqG (wrap n)) (AtSend (wrap n))] (map wrap (ints n len)) it'.
Proof.
  induction len as [|len IH]; intros n.
  - eexists. constructor.
  - destruct (IH (n + 1)) as (it' & H).
    exists it'. rewrite ints_succ. simpl.
    eapply pulls_elem; [reflexivity|].
    cbn [after_send body]. rewrite wrap_add_l. exact H.
Qed.

Lemma Seq_delivered it L it' :
  pulls it L it' ->
  forall n, it = [Node (SeqG (wrap n)) (AtSend (wrap n))] ->
            L = map wrap (ints n (length L)).
Proof.
  induction 1 as [it|i it it1 L it' Hs Hp IH|v it it1 L it' Ho Hp IH];
    intros n ->.
  - reflexivity.
  - destruct i; discriminate.
  - simpl in Ho. injection Ho as <- <-.
    simpl length. rewrite ints_succ. simpl. f_equal.
    apply (IH (n + 1)). cbn [after_send body].
    now rewrite wrap_add_l.
Qed.

End SeqElements.

(** X7.  Seq wraps around.  The elements that [Seq()] delivers are, in
    order, [0, 1, 2, ...] reduced into the range of [int]: after [2^63 - 1]
    comes [-2^63].  Any number of them can be received, and nothing else
    ever is. *)
Theorem Seq_elements :
  (forall len, exists it', pulls Seq (map wrap (ints 0 len)) it') /\
  (forall L it', pulls Seq L it' -> L = map wrap (ints 0 (length L))) /\
  (forall k, 0 <= k <= max_int -> wrap k = k) /\
  wrap (max_int + 1) = min_int.
Proof.
  split; [|split; [|split]].
  - intros len. apply (Seq_delivers len 0).
  - intros L it' H. apply (Seq_delivered _ _ _ H 0). reflexivity.
  - intros k Hk. apply wrap_small. unfold in_range, min_int in *. lia.
  - reflexivity.
Qed.

Lemma Seq_elements_witness :
  (exists it', pulls Seq [0; 1; 2] it') /\
  [0; 1; 2] = map wrap (ints 0 (length [0; 1; 2])).
Proof.
  assert (H : exists it', pulls Seq [0; 1; 2] it') by (eexists; pull_all).
  split; [exact H|]. destruct H as (it' & H).
  exact (proj1 (proj2 Seq_elements) [0; 1; 2] it' H).
Defined.

Section Callers.

Lemma collect_history h :
  forall s t',
    node_run (Node (CollectG s) AtRecv) h = Some t' ->
    body t' = CollectG (s ++ gots h) /\
    (point t' = Returned -> saw_eos h = true).
Proof.
  induction h as [|e h IH]; intros s t' Hr.
  - simpl in Hr. injection Hr as <-. simpl. rewrite app_nil_r.
    split; [reflexivity|discriminate].
  - destruct e as [[x|]|v]; simpl in Hr; try discriminate.
    + destruct (IH (s ++ [x]) t' Hr) as [H1 H2].
      simpl. rewrite <- app_assoc in H1. auto.
    + apply node_run_returned in Hr. destruct Hr as [-> ->].
      simpl. rewrite app_nil_r. auto.
Qed.

Lemma reduce_history fn h :
  forall acc t',
    node_run (Node (ReduceG fn acc) AtRecv) h = Some t' ->
    body t' = ReduceG fn (fold_left fn (gots h) acc) /\
    (point t' = Returned -> saw_eos h = true).
Proof.
  induction h as [|e h IH]; intros acc t' Hr.
  - simpl in Hr. injection Hr as <-. simpl.
    split; [reflexivity|discriminate].
  - destruct e as [[x|]|v]; simpl in Hr; try discriminate.
    + destruct (IH (fn acc x) t' Hr) as [H1 H2]. simpl. auto.
    + apply node_run_returned in Hr. destruct Hr as [-> ->].
      simpl. auto.
Qed.

End Callers.

(** X8.  Collect and Reduce return only on closed sequences.  If
    [it.Collect()] has returned the slice [s], then [it] has closed after
    exactly the elements [s]; if [it.Reduce(init, fn)] has returned [r],
    then [it] has closed after some elements [L] and [r] is the left fold
    of [fn] over [L] from [init]. *)
Theorem terminal_results it :
  (forall net' s,
     reach (Collect it) net' -> result net' = Some (Slice s) ->
     closes_after it s) /\
  (forall init fn net' r,
     reach (Reduce it init fn) net' -> result net' = Some (Int r) ->
     exists L, closes_after it L /\ r = fold_left fn L init).
Proof.
  split.
  - intros net' s Hreach Hres.
    apply reach_pulls_silent in Hreach.
    destruct (pulls_project _ _ _ Hreach (Node (CollectG []) AtRecv) it eq_refl)
      as (h & t' & it' & -> & Hr & _ & Hg & He).
    destruct (collect_history h [] t' Hr) as [Hb Hp].
    destruct t' as [g q]. simpl in *. subst g.
    destruct q; try discriminate. injection Hres as <-.
    exists it'. auto.
  - intros init fn net' r Hreach Hres.
    apply reach_pulls_silent in Hreach.
    destruct (pulls_project _ _ _ Hreach (Node (ReduceG fn init) AtRecv) it
                eq_refl) as (h & t' & it' & -> & Hr & _ & Hg & He).
    destruct (reduce_history fn h init t' Hr) as [Hb Hp].
    destruct t' as [g q]. simpl in *. subst g.
    destruct q; try discriminate. injection Hres as <-.
    exists (gots h). split; [exists it'; auto|reflexivity].
Qed.

Lemma terminal_results_witness :
  exists net',
    reach (Collect (Range 0 2)) net' /\
    result net' = Some (Slice [0; 1]) /\
    closes_after (Range 0 2) [0; 1].
Proof.
  exists (drive 10 (Collect (Range 0 2))).
  assert (H : reach (Collect (Range 0 2)) (drive 10 (Collect (Range 0 2))))
    by (exists [0; 0; 0]%nat; reflexivity).
  split; [exact H|]. split; [reflexivity|].
  exact (proj1 (terminal_results (Range 0 2)) _ [0; 1] H eq_refl).
Defined.

Lemma Take_closed_why it n out X :
  n <= max_int ->
  pulls (Take it n) out X -> closed X = true ->
  exists L it',
    pulls it L it' /\
    (closed it' = true \/ length L = S (Z.to_nat n)).
Proof.
  intros Hn Hp Hc.
  destruct (pulls_project _ _ _ Hp (Node (TakeG n 0) AtRecv) it eq_refl)
    as (h & t' & it' & -> & Hr & Hs & Hg & He).
  destruct (proj1 (take_history n Hn h 0 t' ltac:(lia)) Hr)
    as (_ & _ & _ & H4 & _).
  rewrite Z.sub_0_r in H4.
  exists (gots h), it'. split; [exact Hg|].
  simpl in Hc. destruct (point t'); try discriminate.
  destruct (H4 eq_refl) as [Heos|Hlen]; auto.
Qed.

(** X9.  Take stalls behind a stalled upstream.  If the upstream never
    closes and never delivers more than [max(n,0)] elements, [Take(it,n)]
    never closes its channel, not even for [n <= 0], and
    [Take(it,n).Collect()] never returns. *)
Theorem Take_stalls it n :
  n <= max_int ->
  never_closes it ->
  (forall L it', pulls it L it' -> (length L <= Z.to_nat n)%nat) ->
  never_closes (Take it n) /\ blocks_forever (Collect (Take it n)).
Proof.
  intros Hn Hnc Hshort.
  assert (H : never_closes (Take it n)).
  { intros out X Hp. destruct (closed X) eqn:Hc; [|reflexivity].
    destruct (Take_closed_why it n out X Hn Hp Hc) as (L & it' & HL & [H|H]).
    - rewrite (Hnc _ _ HL) in H. discriminate.
    - specialize (Hshort _ _ HL). lia. }
  split; [exact H|].
  apply caller_blocks; simpl; eauto.
Qed.

Lemma nothing_passes it out X :
  pulls (Filter it (fun _ => false)) out X -> out = [].
Proof.
  intros Hp.
  destruct (stream_sound (Node (FilterG (fun _ => false)) AtRecv) it out X
              eq_refl eq_refl Hp) as (L & it' & _ & H1 & _).
  rewrite transduce_filter in H1. simpl in H1.
  replace (filter (fun _ : Z => false) L) with (@nil Z) in H1.
  - now rewrite firstn_nil in H1.
  - induction L; simpl; auto.
Qed.

Lemma Take_stalls_witness :
  0 <= max_int /\
  never_closes (Filter Seq (fun _ => false)) /\
  blocks_forever (Collect (Take (Filter Seq (fun _ => false)) 0)).
Proof.
  assert (B : 0 <= max_int) by (unfold max_int; lia).
  assert (N : never_closes (Filter Seq (fun _ => false)))
    by (apply never_closes_head; auto using Seq_never_closes).
  split; [exact B|]. split; [exact N|].
  refine (proj2 (Take_stalls (Filter Seq (fun _ => false)) 0 B N _)).
  intros L it' H. rewrite (nothing_passes _ _ _ H). simpl. lia.
Defined.

(** X10.  A closed channel stays closed.  Once the goroutine that owns a
    channel has returned, nothing more is ever delivered on it and it is
    closed in every later state. *)
Theorem closed_for_good it L it' :
  closed it = true -> pulls it L it' -> L = [] /\ closed it' = true.
Proof.
  intros Hc Hp. destruct (closed_pulls it L it' Hp Hc). auto.
Qed.

Lemma closed_for_good_witness :
  closed (Take (Range 0 3) 0) = false /\
  exists X,
    pulls (Take (Range 0 3) 0) [] X /\ closed X = true /\
    forall L X', pulls X L X' -> L = [] /\ closed X' = true.
Proof.
  split; [reflexivity|].
  eexists. split; [|split].
  - eapply pulls_inner with (i := O); [vm_compute; reflexivity|].
    apply pulls_done.
  - reflexivity.
  - intros L X' H. apply (fun E => closed_for_good _ L X' E H).
    reflexivity.
Defined.

(** ** Further properties of main.go *)

Section MainGo.

Lemma wrap_mul_l a b : wrap (wrap a * b) = wrap (a * b).
Proof.
  unfold wrap.
  rewrite (Z.mod_eq (a + 2 ^ 63) (2 ^ 64)) by lia.
  replace ((a + 2 ^ 63 - 2 ^ 64 * ((a + 2 ^ 63) / 2 ^ 64) - 2 ^ 63) * b
           + 2 ^ 63)
    with (a * b + 2 ^ 63 + (- ((a + 2 ^ 63) / 2 ^ 64) * b) * 2 ^ 64) by ring.
  now rewrite Z_mod_plus_full.
Qed.

Lemma ints_snoc a len :
  ints a (S len) = ints a len ++ [a + Z.of_nat len].
Proof. unfold ints. now rewrite seq_S, map_app. Qed.

Lemma ints_app k :
  forall a len, ints a (k + len) = ints a k ++ ints (a + Z.of_nat k) len.
Proof.
  induction k as [|k IH]; intros a len.
  - simpl. now rewrite Z.add_0_r.
  - change (S k + len)%nat with (S (k + len)).
    rewrite !ints_succ, IH. simpl. do 3 f_equal. lia.
Qed.

Lemma skipn_ints k :
  forall a len, skipn k (ints a (k + len)) = ints (a + Z.of_nat k) len.
Proof.
  intros a len. rewrite ints_app.
  rewrite skipn_app, ints_length, Nat.sub_diag.
  rewrite skipn_all2 by (rewrite ints_length; lia). reflexivity.
Qed.

(** The fold of fac is the product, reduced once at the end. *)
Lemma fold_wrap_mul L :
  forall a,
    fold_left (fun acc cur => wrap (acc * cur)) L (wrap a) =
    wrap (fold_left Z.mul L a).
Proof.
  induction L as [|x L IH]; intros a; [reflexivity|].
  simpl. rewrite wrap_mul_l. apply IH.
Qed.

Lemma fold_mul_scale L :
  forall a, fold_left Z.mul L a = a * fold_left Z.mul L 1.
Proof.
  induction L as [|x L IH]; intros a; cbn [fold_left]; [ring|].
  rewrite (IH (a * x)), (IH (1 * x)). ring.
Qed.

Lemma product_fact k :
  fold_left Z.mul (ints 1 k) 1 = Z.of_nat (fact k).
Proof.
  induction k as [|k IH]; [reflexivity|].
  rewrite ints_snoc, fold_left_app, IH.
  cbn [fold_left]. change (fact (S k)) with (S k * fact k)%nat.
  rewrite Nat2Z.inj_mul. lia.
Qed.

End MainGo.

Section FacFacts.

Lemma wrap_multiple c : wrap (2 ^ 64 * c) = 0.
Proof.
  unfold wrap. rewrite Z.add_comm, Z.mul_comm, Z_mod_plus_full.
  reflexivity.
Qed.

Lemma fact_20_fits k :
  (k <= 20)%nat -> wrap (Z.of_nat (fact k)) = Z.of_nat (fact k).
Proof.
  intros Hk. apply wrap_small.
  pose proof (proj1 (Nat2Z.inj_le _ _) (fact_le k 20 Hk)) as Hle.
  pose proof (product_fact 20) as E.
  vm_compute (fold_left Z.mul (ints 1 20) 1) in E.
  rewrite <- E in Hle.
  pose proof (Nat2Z.is_nonneg (fact k)).
  unfold in_range, min_int, max_int. lia.
Qed.

Lemma fact_66_vanishes k :
  (66 <= k)%nat -> wrap (Z.of_nat (fact k)) = 0.
Proof.
  intros Hk. replace k with (66 + (k - 66))%nat by lia.
  rewrite <- product_fact, ints_app, fold_left_app, fold_mul_scale.
  assert (E : fold_left Z.mul (ints 1 66) 1 =
              2 ^ 64 *
              29508998276462666387539681488424100249079032081810725125003770233154296875)
    by (vm_compute; reflexivity).
  rewrite E, <- Z.mul_assoc. apply wrap_multiple.
Qed.

End FacFacts.

(** X11.  squares.  For every [int] [n] below the largest, [squares(n)]
    returns the squares of [1, ..., n] as [int]s (nothing for [n <= 0]);
    they are the exact squares for [n <= 3037000499]; and for the largest
    [int], where [n+1] wraps around, it returns nothing. *)
Theorem squares_spec n :
  in_range n ->
  (n < max_int ->
   yields (squares n)
          (Slice (map (fun x => wrap (x * x)) (ints 1 (Z.to_nat n))))) /\
  (n <= sqrt_bound ->
   yields (squares n) (Slice (map (fun x => x * x) (ints 1 (Z.to_nat n))))) /\
  yields (squares max_int) (Slice []).
Proof.
  intros Hr.
  assert (H1 : n < max_int ->
               yields (squares n)
                 (Slice (map (fun x => wrap (x * x)) (ints 1 (Z.to_nat n))))).
  { intros Hlt. unfold squares.
    rewrite wrap_small by (unfold in_range, min_int, max_int in *; lia).
    apply Collect_yields, Map_closes.
    replace (Z.to_nat n) with (Z.to_nat (n + 1 - 1)) by lia.
    apply Range_closes; unfold min_int, max_int in *; lia. }
  split; [exact H1|]. split.
  - intros Hb.
    replace (map (fun x => x * x) (ints 1 (Z.to_nat n)))
      with (map (fun x => wrap (x * x)) (ints 1 (Z.to_nat n))).
    + apply H1. unfold sqrt_bound, max_int in *. lia.
    + apply map_ext_in. intros x Hx. apply ints_In in Hx.
      apply wrap_small.
      unfold in_range, min_int, max_int, sqrt_bound in *. nia.
  - unfold squares.
    replace (wrap (max_int + 1)) with min_int by reflexivity.
    apply Collect_yields.
    apply (Map_closes (Range 1 min_int) []).
    apply (Range_closes 1 min_int); unfold min_int, max_int; lia.
Qed.

Lemma squares_spec_witness :
  in_range 4 /\ yields (squares 4) (Slice [1; 4; 9; 16]).
Proof.
  assert (A : in_range 4) by (unfold in_range, min_int, max_int; lia).
  split; [exact A|].
  exact (proj1 (proj2 (squares_spec 4 A))
           ltac:(unfold sqrt_bound; lia)).
Defined.

(** X12.  fac.  For every [int] [n] below the largest, [fac(n)] returns
    [n!] reduced into the range of [int] (1 for [n <= 0]): it is [n!]
    exactly up to [n = 20], and 0 from [n = 66] on. *)
Theorem fac_spec n :
  in_range n -> n < max_int ->
  yields (fac n) (Int (wrap (Z.of_nat (fact (Z.to_nat n))))) /\
  (n <= 20 ->
   wrap (Z.of_nat (fact (Z.to_nat n))) = Z.of_nat (fact (Z.to_nat n))) /\
  (66 <= n -> wrap (Z.of_nat (fact (Z.to_nat n))) = 0).
Proof.
  intros Hr Hlt. split; [|split].
  - unfold fac.
    rewrite wrap_small by (unfold in_range, min_int, max_int in *; lia).
    rewrite <- product_fact.
    rewrite <- (fold_wrap_mul (ints 1 (Z.to_nat n)) 1).
    replace (wrap 1) with 1 by reflexivity.
    apply Reduce_yields.
    replace (Z.to_nat n) with (Z.to_nat (n + 1 - 1)) by lia.
    apply Range_closes; unfold in_range, min_int, max_int in *; lia.
  - intros Hn. apply fact_20_fits. lia.
  - intros Hn. apply fact_66_vanishes. lia.
Qed.

Lemma fac_spec_witness :
  in_range 5 /\ 5 < max_int /\ yields (fac 5) (Int 120).
Proof.
  assert (A : in_range 5) by (unfold in_range, min_int, max_int; lia).
  assert (B : 5 < max_int) by (unfold max_int; lia).
  split; [exact A|]. split; [exact B|].
  exact (proj1 (fac_spec 5 A B)).
Defined.

(** A proper divisor comes with a divisor up to the square root, which the
    loop finds. *)
Lemma composite_not_isPrime n d :
  in_range n -> 1 < d < n -> (d | n) -> isPrime n = Ret false.
Proof.
  intros Hr Hd (q & Hq).
  assert (Hq2 : 2 <= q) by nia.
  destruct (Z.le_ge_cases d q) as [Hle|Hge].
  - apply (isPrime_false n Hr d); [lia|nia|exists q; exact Hq].
  - apply (isPrime_false n Hr q); [lia|nia|exists d; lia].
Qed.

(** X13.  isPrime on its intended domain.  For every [int] [n >= 2],
    [isPrime(n)] is true exactly when [n] is a prime number. *)
Theorem isPrime_decides_primes n :
  2 <= n <= max_int -> (isPrime n = Ret true <-> Z.prime n).
Proof.
  intros Hn.
  assert (Hr : in_range n) by (unfold in_range, min_int, max_int in *; lia).
  split.
  - intros Htrue. split; [lia|].
    intros d Hd Hdiv.
    rewrite (composite_not_isPrime n d Hr Hd Hdiv) in Htrue. discriminate.
  - intros [_ Hp]. apply isPrime_true; [exact Hr|].
    intros j [Hj Hs]. apply Hp.
    assert (Hjj : j * j <= n) by (apply Z.sqrt_le_square; lia).
    nia.
Qed.

Lemma isPrime_decides_primes_witness :
  2 <= 97 <= max_int /\ (isPrime 97 = Ret true <-> Z.prime 97).
Proof.
  assert (A : 2 <= 97 <= max_int) by (unfold max_int; lia).
  split; [exact A|]. exact (isPrime_decides_primes 97 A).
Defined.

Section FirstPrimes.

Lemma ints_sorted len : forall a, StronglySorted Z.lt (ints a len).
Proof.
  induction len as [|len IH]; intros a; [constructor|].
  rewrite ints_succ. constructor; [apply IH|].
  apply Forall_forall. intros x Hx. apply ints_In in Hx. lia.
Qed.

Lemma filter_sorted (f : Z -> bool) l :
  StronglySorted Z.lt l -> StronglySorted Z.lt (filter f l).
Proof.
  induction 1 as [|x l Hs IH Hall]; simpl; [constructor|].
  destruct (f x); [|exact IH].
  constructor; [exact IH|].
  apply Forall_forall. intros y Hy. apply filter_In in Hy.
  rewrite Forall_forall in Hall. now apply Hall.
Qed.

Lemma firstn_sorted l :
  StronglySorted Z.lt l -> forall k, StronglySorted Z.lt (firstn k l).
Proof.
  induction 1 as [|x l Hs IH Hall]; intros [|k]; simpl; try constructor.
  - apply IH.
  - apply Forall_forall. intros y Hy.
    rewrite Forall_forall in Hall. apply Hall.
    rewrite <- (firstn_skipn k l). apply in_or_app. now left.
Qed.

(** In an increasing list, whatever lies below an element of a prefix lies
    in that prefix. *)
Lemma sorted_prefix_closed l :
  StronglySorted Z.lt l ->
  forall k p q,
    In p (firstn k l) -> In q l -> q < p -> In q (firstn k l).
Proof.
  induction 1 as [|x l Hs IH Hall]; intros [|k] p q Hp Hq Hlt; simpl in *;
    try contradiction.
  rewrite Forall_forall in Hall.
  destruct Hq as [->|Hq]; [now left|].
  destruct Hp as [->|Hp].
  - specialize (Hall q Hq). lia.
  - right. eapply IH; eassumption.
Qed.

Lemma prime_isPrimeb q :
  Z.prime q -> q <= max_int -> isPrimeb q = true.
Proof.
  intros [Hq Hp] Hmax.
  assert (Hr : in_range q) by (unfold in_range, min_int, max_int in *; lia).
  unfold isPrimeb. rewrite (isPrime_true q Hr); [reflexivity|].
  intros j [Hj Hs]. apply Hp.
  assert (Hjj : j * j <= q) by (apply Z.sqrt_le_square; lia).
  nia.
Qed.

End FirstPrimes.

(** X14.  primes.  If there are more than [n] primes among
    [2, ..., m+1], then [primes(n)] returns exactly the [max(n,0)]
    smallest primes, in increasing order: the slice has that length, is
    strictly increasing, holds only primes, and holds every prime below
    any of its elements.  The prime after the last one returned has to be
    found before the result is there. *)
Theorem primes_spec n m :
  n <= max_int -> Z.of_nat m + 1 <= max_int ->
  (Z.to_nat n < length (filter isPrimeb (ints 2 m)))%nat ->
  exists R,
    yields (primes n) (Slice R) /\
    R = firstn (Z.to_nat n) (filter isPrimeb (ints 2 m)) /\
    length R = Z.to_nat n /\
    StronglySorted Z.lt R /\
    (forall p, In p R -> Z.prime p) /\
    (forall p q, In p R -> Z.prime q -> q < p -> In q R).
Proof.
  intros Hn Hm Hlen.
  exists (firstn (Z.to_nat n) (filter isPrimeb (ints 2 m))).
  assert (Hsub : forall p,
             In p (firstn (Z.to_nat n) (filter isPrimeb (ints 2 m))) ->
             2 <= p < 2 + Z.of_nat m /\ isPrimeb p = true).
  { intros p Hp.
    assert (Hp' : In p (filter isPrimeb (ints 2 m))).
    { rewrite <- (firstn_skipn (Z.to_nat n)). apply in_or_app. now left. }
    apply filter_In in Hp'. destruct Hp' as [Hin Hb].
    apply ints_In in Hin. auto. }
  split; [|split; [|split; [|split; [|split]]]].
  - unfold primes. apply Collect_yields.
    destruct (Seq_pulls (2 + m) 0) as (it0 & H0);
      [unfold min_int; lia|lia|].
    destruct (stream_complete (Node (DropG 2 0) AtRecv) _ _ _ H0)
      as (it1 & H1).
    destruct (transduce_drop 2 (ints 0 (2 + m))
                ltac:(unfold max_int; lia) 0 ltac:(lia)) as (c & E).
    rewrite E in H1. cbn [fst] in H1.
    change (Z.to_nat (2 - 0)) with 2%nat in H1.
    rewrite (skipn_ints 2 0 m) in H1.
    destruct (stream_complete (Node (FilterG isPrimeb) AtRecv) _ _ _ H1)
      as (it2 & H2).
    rewrite transduce_filter in H2. cbn [fst] in H2.
    eapply Take_closes; [exact H2|right; exact Hlen|exact Hn].
  - reflexivity.
  - rewrite length_firstn. lia.
  - apply firstn_sorted, filter_sorted, ints_sorted.
  - intros p Hp. destruct (Hsub p Hp) as [Hin Hb].
    assert (Hr : in_range p)
      by (unfold in_range, min_int, max_int in *; lia).
    split; [lia|]. intros d Hd Hdiv.
    unfold isPrimeb in Hb.
    rewrite (composite_not_isPrime p d Hr Hd Hdiv) in Hb. discriminate.
  - intros p q Hp Hq Hlt. destruct (Hsub p Hp) as [Hin _].
    apply (sorted_prefix_closed _ (filter_sorted isPrimeb _ (ints_sorted m 2))
             (Z.to_nat n) p q Hp); [|exact Hlt].
    apply filter_In. split.
    + apply ints_In. destruct Hq as [Hq1 _]. lia.
    + apply prime_isPrimeb; [exact Hq|lia].
Qed.

Lemma primes_spec_witness :
  3 <= max_int /\ Z.of_nat 10 + 1 <= max_int /\
  yields (primes 3) (Slice [2; 3; 5]).
Proof.
  assert (A : 3 <= max_int) by (unfold max_int; lia).
  assert (B : Z.of_nat 10 + 1 <= max_int) by (unfold max_int; lia).
  split; [exact A|]. split; [exact B|].
  destruct (primes_spec 3 10 A B ltac:(vm_compute; lia))
    as (R & HY & ER & _).
  rewrite ER in HY. exact HY.
Defined.

(** ** Closing, and the order of elements *)

Section Closing.

(** A goroutine with an upstream that has returned has sent all that
    [transduce] computes from what it has received. *)
Lemma history_final h :
  forall t t',
    has_upstream (body t) = true ->
    node_run t h = Some t' -> point t' = Returned ->
    match point t with
    | AtRecv => sents h = fst (fst (transduce t (gots h)))
    | AtSend v =>
        sents h = v :: fst (fst (transduce (after_send (body t)) (gots h)))
    | Returned => True
    end.
Proof.
  induction h as [|e h IH]; intros [g q] t' Hk Hr Hp.
  - simpl in Hr. injection Hr as <-. simpl in Hp. subst q. exact I.
  - destruct q as [|v|]; simpl in Hr.
    + destruct e as [[x|]|w]; try discriminate.
      * pose proof (IH (after_recv g (Some x)) t'
                      (has_upstream_recv g (Some x) Hk) Hr Hp) as H.
        cbn [point gots transduce body sents].
        destruct (point (after_recv g (Some x))) as [|v|] eqn:Ep.
        -- exact H.
        -- destruct (transduce (after_send (body (after_recv g (Some x))))
                       (gots h)) as [[out t1] rest].
           exact H.
        -- destruct (after_recv g (Some x)) as [g1 q1]. simpl in Ep.
           subst q1. apply node_run_returned in Hr.
           destruct Hr as [-> _]. reflexivity.
      * rewrite after_recv_eos in Hr.
        apply node_run_returned in Hr. destruct Hr as [-> _]. reflexivity.
    + destruct e as [m|w]; try discriminate.
      destruct (Z.eqb_spec w v) as [->|]; [|discriminate].
      destruct (has_upstream_send g Hk) as [Hk' Hns].
      pose proof (IH (after_send g) t' Hk' Hr Hp) as H.
      cbn [point gots body sents].
      destruct (point (after_send g)) as [|u|] eqn:Ep.
      * now f_equal.
      * now destruct (Hns u).
      * destruct (after_send g) as [g1 q1]. simpl in Ep. subst q1.
        apply node_run_returned in Hr. destruct Hr as [-> _]. reflexivity.
    + exact I.
Qed.

(** Behind a goroutine that leaves its loop only at the end of its input,
    a closed channel means a closed upstream, all of whose elements went
    through. *)
Lemma closes_sound t it out :
  waits_for_eos (body t) = true -> point t = AtRecv ->
  closes_after (t :: it) out ->
  exists L, closes_after it L /\ out = fst (fst (transduce t L)).
Proof.
  intros Hw Ht (X & Hp & Hc).
  destruct (pulls_project _ _ _ Hp t it eq_refl)
    as (h & t' & it' & -> & Hr & Hs & Hg & He).
  assert (Hret : point t' = Returned)
    by (simpl in Hc; destruct (point t'); congruence).
  assert (Hk : has_upstream (body t) = true)
    by (destruct (body t); simpl in *; congruence).
  assert (Heos : saw_eos h = true).
  { apply (returns_on_eos h t t' Hw); [now rewrite Ht|exact Hr|exact Hret]. }
  pose proof (history_final h t t' Hk Hr Hret) as Hf. rewrite Ht in Hf.
  exists (gots h). split; [exists it'; auto|congruence].
Qed.

(** The recorder: what can be received from an iterator is what Collect
    can have appended. *)
Lemma recorded it L X :
  pulls it L X ->
  reach (Node (CollectG []) AtRecv :: it) (Node (CollectG L) AtRecv :: X).
Proof.
  intros Hp.
  destruct (pulls_through it L X Hp (Node (CollectG []) AtRecv))
    as (it'' & H & E).
  rewrite (transduce_collect L []) in H, E. simpl in H, E.
  rewrite (E eq_refl) in H. now apply pulls_silent_reach.
Qed.

Lemma recorder_grows s X net' :
  reach (Node (CollectG s) AtRecv :: X) net' ->
  exists more q tl, net' = Node (CollectG (s ++ more)) q :: tl.
Proof.
  intros Hreach. apply reach_pulls_silent in Hreach.
  destruct (pulls_project _ _ _ Hreach (Node (CollectG s) AtRecv) X eq_refl)
    as (h & t' & it' & -> & Hr & _).
  destruct (collect_history h s t' Hr) as [Hb _].
  destruct t' as [g q]. simpl in Hb. subst g. eauto.
Qed.

Lemma Range_delivered it L it' :
  pulls it L it' ->
  forall i to,
    it = [range_head i to] -> min_int <= i -> to <= max_int ->
    L = ints i (length L) /\ (L <> [] -> i + Z.of_nat (length L) <= to).
Proof.
  induction 1 as [it|j it it1 L it' Hs Hp IH|v it it1 L it' Ho Hp IH];
    intros i to -> Hi Hto.
  - split; [reflexivity|congruence].
  - destruct j; discriminate.
  - unfold range_head in Ho. destruct (Z.ltb_spec i to) as [Hlt|Hge];
      simpl in Ho; [|discriminate].
    injection Ho as <- <-.
    rewrite wrap_small in IH
      by (unfold in_range, min_int, max_int in *; lia).
    destruct (IH (i + 1) to eq_refl ltac:(lia) Hto) as [H1 H2].
    split.
    + simpl length. rewrite ints_succ. now f_equal.
    + intros _. simpl length. destruct L as [|y L]; [simpl; lia|].
      specialize (H2 ltac:(discriminate)). lia.
Qed.

End Closing.

(** X15.  Map, Filter and Drop close exactly when their upstream does.
    Behind Map, Filter or Drop a sequence closes after the elements [out]
    if and only if the upstream closes after some elements [L] of which
    [out] is the image: [map fn L], [filter pred L], [L] without its first
    [max(n,0)] elements. *)
Theorem closes_exactly it out :
  (forall fn,
     closes_after (Map it fn) out <->
     exists L, closes_after it L /\ out = map fn L) /\
  (forall pred,
     closes_after (Filter it pred) out <->
     exists L, closes_after it L /\ out = filter pred L) /\
  (forall n, n <= max_int ->
     (closes_after (Drop it n) out <->
      exists L, closes_after it L /\ out = skipn (Z.to_nat n) L)).
Proof.
  split; [|split].
  - intros fn. split.
    + intros H. apply closes_sound in H; auto.
      destruct H as (L & HL & E). rewrite transduce_map in E. eauto.
    + intros (L & HL & ->). now apply Map_closes.
  - intros pred. split.
    + intros H. apply closes_sound in H; auto.
      destruct H as (L & HL & E). rewrite transduce_filter in E. eauto.
    + intros (L & HL & ->). now apply Filter_closes.
  - intros n Hn. split.
    + intros H. apply closes_sound in H; auto.
      destruct H as (L & HL & E).
      destruct (transduce_drop n L Hn 0 ltac:(lia)) as (c & Ed).
      rewrite Ed, Z.sub_0_r in E. eauto.
    + intros (L & HL & ->). now apply Drop_closes.
Qed.

Lemma closes_exactly_witness :
  closes_after (Range 0 4) [0; 1; 2; 3] /\
  closes_after (Filter (Range 0 4) Z.odd) [1; 3].
Proof.
  assert (H : closes_after (Range 0 4) [0; 1; 2; 3])
    by (eexists; split; [pull_all|reflexivity]).
  split; [exact H|].
  apply (proj1 (proj2 (closes_exactly (Range 0 4) [1; 3])) Z.odd).
  exists [0; 1; 2; 3]. split; [exact H|reflexivity].
Defined.

(** X16.  The elements of a sequence do not depend on the schedule.  Of
    any two lists of elements that can be received from one iterator, one
    is a prefix of the other. *)
Theorem elements_deterministic it L1 X1 L2 X2 :
  pulls it L1 X1 -> pulls it L2 X2 ->
  exists more, L2 = L1 ++ more \/ L1 = L2 ++ more.
Proof.
  intros H1 H2.
  destruct (recorded it L1 X1 H1) as (s1 & Hs1).
  pose proof (recorded it L2 X2 H2) as Hr2.
  destruct (confluence s1 _ _ Hs1 _ Hr2) as (c & Hc1 & Hc2).
  destruct (recorder_grows _ _ _ Hc1) as (m1 & q1 & tl1 & E1).
  destruct (recorder_grows _ _ _ Hc2) as (m2 & q2 & tl2 & E2).
  rewrite E1 in E2. injection E2 as E _ _.
  apply app_eq_app in E. destruct E as (l & [[-> _]|[-> _]]); eauto.
Qed.

Lemma elements_deterministic_witness :
  exists X1 X2 more,
    pulls (Map (Map Seq Z.succ) Z.succ) [2] X1 /\
    pulls (Map (Map Seq Z.succ) Z.succ) [2; 3] X2 /\
    X1 <> X2 /\
    ([2; 3] = [2] ++ more \/ [2] = [2; 3] ++ more).
Proof.
  assert (P1 : exists X1, pulls (Map (Map Seq Z.succ) Z.succ) [2] X1 /\
                          X1 = [Node (MapG Z.succ) AtRecv;
                                Node (MapG Z.succ) (AtSend 2);
                                Node (SeqG 2) (AtSend 2)]).
  { eexists. split.
    - eapply pulls_inner with (i := 1%nat); [vm_compute; reflexivity|].
      eapply pulls_inner with (i := 0%nat); [vm_compute; reflexivity|].
      eapply pulls_inner with (i := 1%nat); [vm_compute; reflexivity|].
      eapply pulls_elem; [vm_compute; reflexivity|].
      apply pulls_done.
    - reflexivity. }
  assert (P2 : exists X2, pulls (Map (Map Seq Z.succ) Z.succ) [2; 3] X2 /\
                          X2 = [Node (MapG Z.succ) AtRecv;
                                Node (MapG Z.succ) AtRecv;
                                Node (SeqG 2) (AtSend 2)]).
  { eexists. split.
    - eapply pulls_inner with (i := 1%nat); [vm_compute; reflexivity|].
      eapply pulls_inner with (i := 0%nat); [vm_compute; reflexivity|].
      eapply pulls_elem; [vm_compute; reflexivity|].
      eapply pulls_inner with (i := 1%nat); [vm_compute; reflexivity|].
      eapply pulls_inner with (i := 0%nat); [vm_compute; reflexivity|].
      eapply pulls_elem; [vm_compute; reflexivity|].
      apply pulls_done.
    - reflexivity. }
  destruct P1 as (X1 & H1 & E1). destruct P2 as (X2 & H2 & E2).
  destruct (elements_deterministic _ _ _ _ _ H1 H2) as (more & H).
  exists X1, X2, more. repeat split; auto.
  rewrite E1, E2. discriminate.
Defined.

(** X17.  Range delivers in order, also when it is not drained.  Whatever
    has been received from [Range(a,b)] so far is [a, a+1, ...] without a
    gap, and never more than [max(0, b-a)] elements. *)
Theorem Range_prefix a b L X :
  in_range a -> in_range b ->
  pulls (Range a b) L X ->
  L = ints a (length L) /\ Z.of_nat (length L) <= Z.max 0 (b - a).
Proof.
  intros [Ha _] [_ Hb] Hp.
  destruct (Range_delivered _ _ _ Hp a b eq_refl Ha Hb) as [H1 H2].
  split; [exact H1|].
  destruct L as [|x L]; [simpl; lia|].
  specialize (H2 ltac:(discriminate)). lia.
Qed.

Lemma Range_prefix_witness :
  exists X,
    in_range 5 /\ in_range 9 /\
    pulls (Range 5 9) [5; 6] X /\
    [5; 6] = ints 5 (length [5; 6]).
Proof.
  assert (A : in_range 5) by (unfold in_range, min_int, max_int; lia).
  assert (B : in_range 9) by (unfold in_range, min_int, max_int; lia).
  assert (P : exists X, pulls (Range 5 9) [5; 6] X) by (eexists; pull_all).
  destruct P as (X & P). exists X.
  split; [exact A|]. split; [exact B|]. split; [exact P|].
  exact (proj1 (Range_prefix 5 9 [5; 6] X A B P)).
Defined.
